(** * unreal-engine-hub: the news updater (update-news.js) and the static
      server (server.js), embedded and checked against their specification.

    JavaScript strings are sequences of UTF-16 code units; [length], [slice]
    and the regular-expression engine (no [u] flag in this code) all work on
    code units, so a string is modelled as a list of code units. *)

From Stdlib Require Import Ascii String.
From Stdlib Require Decimal.
From Stdlib Require Import List Arith NArith Bool Lia.
Import ListNotations.
Open Scope list_scope.

(* ------------------------------------------------------------------ *)
(** ** Strings of UTF-16 code units *)

Module JsString.

Definition char := N.
Definition jsstring := list char.

(** An ASCII literal of the source as code units. *)
Fixpoint lit (s : string) : jsstring :=
  match s with
  | EmptyString => []
  | String a s' => N_of_ascii a :: lit s'
  end.
Arguments lit s%_string.

Definition dq : char := 34%N.          (* the double quote *)
Definition lt : char := 60%N.          (* < *)
Definition nl : char := 10%N.          (* \n *)
Definition dollar : char := 36%N.      (* $ *)
Definition slash : char := 47%N.       (* / *)
Definition dot : char := 46%N.         (* . *)

Definition spaces (n : nat) : jsstring := repeat 32%N n.

Definition jsstring_eqb (a b : jsstring) : bool :=
  if list_eq_dec N.eq_dec a b then true else false.

(** [s.startsWith(p)] returning the rest of [s] after [p]. *)
Fixpoint strip_prefix (p s : jsstring) : option jsstring :=
  match p with
  | [] => Some s
  | c :: p' =>
      match s with
      | [] => None
      | d :: s' => if N.eqb c d then strip_prefix p' s' else None
      end
  end.

(** [s.slice(0, n)] for [0 <= n]. *)
Definition slice0 (n : nat) (s : jsstring) : jsstring := firstn n s.

(** [s] occurs in [t] as a contiguous substring. *)
Definition substring_of (s t : jsstring) : Prop :=
  exists pre post, t = pre ++ s ++ post.

(** [t.includes(s)]: the decidable form of [substring_of]. *)
Fixpoint includes (s t : jsstring) : bool :=
  match strip_prefix s t with
  | Some _ => true
  | None =>
      match t with
      | [] => false
      | _ :: t' => includes s t'
      end
  end.

(** [a || b] on strings that may be undefined or null: the empty string and
    the absent value are falsy. *)
Definition or_else (a : option jsstring) (b : jsstring) : jsstring :=
  match a with
  | Some (c :: s) => c :: s
  | _ => b
  end.

Definition or_opt (a b : option jsstring) : option jsstring :=
  match a with
  | Some (c :: s) => Some (c :: s)
  | _ => b
  end.

End JsString.
Import JsString.

(* ------------------------------------------------------------------ *)
(** ** The fragment of ECMAScript regular expressions the program uses

    Literal runs, and a single-character class under [*], [*?] or [+].
    A pattern is a sequence of segments; in [replaceSection] the segments
    are the three capture groups, which follow each other and cover the
    whole match. Matching is by backtracking, in the order of the
    ECMAScript semantics: a greedy quantifier tries the longest run first,
    a lazy one the shortest. *)

Module Regex.

Inductive cclass :=
| CDot (dotAll : bool)     (* [.], with or without the [s] flag *)
| CNot (c : char)          (* [[^c]] *)
| CSpace.                  (* [\s] *)

Definition is_line_terminator (c : char) : bool :=
  N.eqb c 10 || N.eqb c 13 || N.eqb c 8232 || N.eqb c 8233.

Definition is_white_space (c : char) : bool :=
  N.eqb c 9 || N.eqb c 11 || N.eqb c 12 || N.eqb c 32 || N.eqb c 160
  || N.eqb c 5760 || (N.leb 8192 c && N.leb c 8202)
  || N.eqb c 8239 || N.eqb c 8287 || N.eqb c 12288 || N.eqb c 65279
  || is_line_terminator c.

Definition in_class (cl : cclass) (c : char) : bool :=
  match cl with
  | CDot dotAll => dotAll || negb (is_line_terminator c)
  | CNot d => negb (N.eqb c d)
  | CSpace => is_white_space c
  end.

Inductive atom :=
| ALit (l : jsstring)
| AStar (greedy : bool) (cl : cclass)
| APlus (greedy : bool) (cl : cclass).

Definition segment := list atom.
Definition regex := list segment.

Section Matcher.
Context {A : Type}.

(** [cl*] followed by the continuation [k]: longest run first. *)
Fixpoint star_greedy (cl : cclass) (k : jsstring -> option A)
         (s : jsstring) : option A :=
  match s with
  | c :: s' =>
      if in_class cl c then
        match star_greedy cl k s' with
        | Some r => Some r
        | None => k s
        end
      else k s
  | [] => k s
  end.

(** [cl*?] followed by the continuation [k]: shortest run first. *)
Fixpoint star_lazy (cl : cclass) (k : jsstring -> option A)
         (s : jsstring) : option A :=
  match k s with
  | Some r => Some r
  | None =>
      match s with
      | c :: s' => if in_class cl c then star_lazy cl k s' else None
      | [] => None
      end
  end.

Definition star (greedy : bool) :=
  if greedy then star_greedy else star_lazy.

Fixpoint match_atoms (atoms : list atom) (s : jsstring)
         (k : jsstring -> option A) : option A :=
  match atoms with
  | [] => k s
  | ALit l :: rest =>
      match strip_prefix l s with
      | Some s' => match_atoms rest s' k
      | None => None
      end
  | AStar g cl :: rest =>
      star g cl (fun s' => match_atoms rest s' k) s
  | APlus g cl :: rest =>
      match s with
      | c :: s' =>
          if in_class cl c
          then star g cl (fun s' => match_atoms rest s' k) s'
          else None
      | [] => None
      end
  end.
End Matcher.

(** The segments matched from the start of [s], with the text of each
    segment, and what follows the match. *)
Fixpoint match_segs (segs : regex) (s : jsstring)
  : option (list jsstring * jsstring) :=
  match segs with
  | [] => Some ([], s)
  | g :: gs =>
      match_atoms g s (fun rest =>
        match match_segs gs rest with
        | Some (caps, tl) =>
            Some (firstn (length s - length rest) s :: caps, tl)
        | None => None
        end)
  end.

(** [RegExp.prototype.exec] without the global flag: the match at the
    leftmost start position that has one. The result is the text before the
    match, the segments and the text after it. *)
Fixpoint exec (segs : regex) (s : jsstring)
  : option (jsstring * list jsstring * jsstring) :=
  match match_segs segs s with
  | Some (caps, tl) => Some ([], caps, tl)
  | None =>
      match s with
      | [] => None
      | c :: s' =>
          match exec segs s' with
          | Some (b, caps, a) => Some (c :: b, caps, a)
          | None => None
          end
      end
  end.

(** [s.replace(regex, f)] for a regex without the global flag: the first
    match is replaced by what [f] returns for it, the rest is kept. *)
Definition replace (segs : regex)
           (f : jsstring -> list jsstring -> jsstring -> jsstring)
           (s : jsstring) : jsstring :=
  match exec segs s with
  | None => s
  | Some (b, caps, a) => b ++ f b caps a ++ a
  end.

(** The expansion of a replacement string (GetSubstitution) for a pattern
    without capture groups: [$$], [$&], [$`] and [$'] are special, any
    other [$] stands for itself. *)
Fixpoint get_substitution (matched before after t : jsstring) : jsstring :=
  match t with
  | [] => []
  | c :: t' =>
      if N.eqb c dollar then
        match t' with
        | d :: t'' =>
            if N.eqb d dollar then dollar :: get_substitution matched before after t''
            else if N.eqb d 38 then matched ++ get_substitution matched before after t''
            else if N.eqb d 96 then before ++ get_substitution matched before after t''
            else if N.eqb d 39 then after ++ get_substitution matched before after t''
            else c :: get_substitution matched before after t'
        | [] => [c]
        end
      else c :: get_substitution matched before after t'
  end.

(** [s.replace(regex, template)] with a replacement string. *)
Definition replace_str (segs : regex) (template : jsstring)
           (s : jsstring) : jsstring :=
  replace segs (fun b caps a => get_substitution (concat caps) b a template) s.

(** *** The language of a pattern, independently of the matcher *)

Inductive atom_lang : atom -> jsstring -> Prop :=
| L_lit l : atom_lang (ALit l) l
| L_star g cl w :
    forallb (in_class cl) w = true -> atom_lang (AStar g cl) w
| L_plus g cl w :
    w <> [] -> forallb (in_class cl) w = true -> atom_lang (APlus g cl) w.

Inductive atoms_lang : list atom -> jsstring -> Prop :=
| L_nil : atoms_lang [] []
| L_cons a rest w1 w2 :
    atom_lang a w1 -> atoms_lang rest w2 -> atoms_lang (a :: rest) (w1 ++ w2).

Inductive segs_lang : regex -> list jsstring -> Prop :=
| S_nil : segs_lang [] []
| S_cons g gs w ws :
    atoms_lang g w -> segs_lang gs ws -> segs_lang (g :: gs) (w :: ws).

(** [s] has a match of the pattern starting at offset [n]. *)
Definition match_at (segs : regex) (s : jsstring) (n : nat) : Prop :=
  exists b ws a, s = b ++ concat ws ++ a /\ length b = n /\ segs_lang segs ws.

End Regex.
Import Regex.

(* ------------------------------------------------------------------ *)
(** ** The runtime the two programs run against

    What Node and the outside world provide: the calendar, the network, the
    JSON parser and the file system. A value of [runtime] fixes them for one
    run, so that the programs become functions. *)

Module Runtime.

Inductive month :=
| January | February | March | April | May | June
| July | August | September | October | November | December.

(** A calendar date in the local time zone, as [Date] exposes it through
    [getFullYear], [getMonth] and [getDate]. *)
Record date := { year : N; mon : month; day : N }.

Definition month_name (m : month) : jsstring :=
  match m with
  | January => lit "January" | February => lit "February"
  | March => lit "March" | April => lit "April" | May => lit "May"
  | June => lit "June" | July => lit "July" | August => lit "August"
  | September => lit "September" | October => lit "October"
  | November => lit "November" | December => lit "December"
  end.

Fixpoint digits (u : Decimal.uint) : jsstring :=
  match u with
  | Decimal.Nil => []
  | Decimal.D0 u => 48%N :: digits u | Decimal.D1 u => 49%N :: digits u
  | Decimal.D2 u => 50%N :: digits u | Decimal.D3 u => 51%N :: digits u
  | Decimal.D4 u => 52%N :: digits u | Decimal.D5 u => 53%N :: digits u
  | Decimal.D6 u => 54%N :: digits u | Decimal.D7 u => 55%N :: digits u
  | Decimal.D8 u => 56%N :: digits u | Decimal.D9 u => 57%N :: digits u
  end.

Definition decimal (n : N) : jsstring := digits (N.to_uint n).

(** [d.toLocaleDateString('en-US', { year: 'numeric', month: 'long',
    day: 'numeric' })] for a valid date: "February 18, 2026". *)
Definition toLocaleDateString_en_US (d : date) : jsstring :=
  month_name (mon d) ++ lit " " ++ decimal (day d) ++ lit ", "
  ++ decimal (year d).

(** The same call on a [Date] that may be invalid. *)
Definition toLocaleDateString (d : option date) : jsstring :=
  match d with
  | Some d => toLocaleDateString_en_US d
  | None => lit "Invalid Date"
  end.

Inductive error :=
| SyntaxError       (* JSON.parse on a body that is not JSON *)
| TypeError         (* a property read on null *)
| NetworkError      (* the 'error' event of the request *)
| IOError.          (* readFileSync or writeFileSync *)

(** A promise once the event loop has run dry. *)
Inductive promise (A : Type) :=
| Resolved (a : A)
| Rejected (e : error)
| Pending.
Arguments Resolved {A} a.
Arguments Rejected {A} e.
Arguments Pending {A}.

(** [Promise.all([p1, p2])]: rejected as soon as one of the two is, resolved
    when both are. When both reject, the one that settled first gives the
    error; the model takes them in argument order. *)
Definition Promise_all {A B} (p1 : promise A) (p2 : promise B)
  : promise (A * B) :=
  match p1, p2 with
  | Rejected e, _ => Rejected e
  | _, Rejected e => Rejected e
  | Resolved a, Resolved b => Resolved (a, b)
  | _, _ => Pending
  end.

(** An article of the news provider, typed as its schema and the data model
    have it: every field is a string, or is missing. *)
Record news_source := { name : option jsstring }.

Record article := {
  title : option jsstring;
  description : option jsstring;
  content : option jsstring;
  publishedAt : option jsstring;
  source : option news_source;
  url : option jsstring
}.

(** What [JSON.parse] returns on a body that parses, seen through the
    properties the program reads: [null], on which a property read throws,
    or a value with its [status] and [message] ([None] where the property is
    missing or not a string) and its [articles] ([None] where it is missing
    or falsy). A value that is not an object has none of the three. *)
Inductive payload :=
| PNull
| PValue (status message : option jsstring) (articles : option (list article)).

(** The query parameters of the request to the provider. *)
Record request := {
  q : jsstring;
  from : jsstring;
  sortBy : jsstring;
  language : jsstring;
  apiKey : jsstring;
  pageSize : nat
}.

(** What [https.get] leads to: the 'error' event, the 'end' event after the
    chunks were concatenated into [data], or neither of them ever. *)
Inductive http_outcome :=
| HttpError
| HttpEnd (data : jsstring)
| HttpSilent.

Record runtime := {
  NEWS_API_KEY : jsstring;                     (* process.env.NEWS_API_KEY || '' *)
  https_get : request -> http_outcome;
  JSON_parse : jsstring -> option payload;     (* [None]: it throws *)
  Date_parse : option jsstring -> option date; (* [new Date(x)], [None]: invalid *)
  now : date;                                  (* [new Date()] *)
  two_weeks_ago_iso : jsstring;                (* the date part of toISOString(), 14 days back *)
  INDEX_html : option jsstring;                (* readFileSync, [None]: it throws *)
  write_succeeds : bool                        (* writeFileSync returns normally *)
}.

End Runtime.
Import Runtime.

(* ------------------------------------------------------------------ *)
(** ** update-news.js *)

Module Updater.

Definition QUERIES_us : jsstring :=
  lit "autonomous driving simulation Unreal Engine NVIDIA Waymo".

Definition QUERIES_china : jsstring :=
  [33258; 21160; 39550; 39542; 32; 20223; 30495; 32; 20013; 22269]%N
  ++ lit " OR autonomous driving simulation China".

(** [json.status === 'ok'] *)
Definition status_is_ok (status : option jsstring) : bool :=
  match status with
  | Some s => jsstring_eqb s (lit "ok")
  | None => false
  end.

Section WithRuntime.
Variable rt : runtime.

(** The parameters of the request: the [params] of [fetchNews]. *)
Definition news_request (query fromDate : jsstring) : request :=
  {| q := query; from := fromDate; sortBy := lit "publishedAt";
     language := lit "en"; apiKey := NEWS_API_KEY rt; pageSize := 5 |}.

Definition fetchNews (query fromDate : jsstring) : promise (list article) :=
  match NEWS_API_KEY rt with
  | [] => Resolved []
  | _ =>
      match https_get rt (news_request query fromDate) with
      | HttpError => Rejected NetworkError
      | HttpSilent => Pending
      | HttpEnd data =>
          match JSON_parse rt data with
          | None => Rejected SyntaxError
          | Some PNull => Rejected TypeError
          | Some (PValue status _ articles) =>
              if status_is_ok status
              then Resolved (match articles with Some l => l | None => [] end)
              else Resolved []
          end
      end
  end.

Definition formatDate (dateStr : option jsstring) : jsstring :=
  toLocaleDateString (Date_parse rt dateStr).

(** [replace] with the global pattern of one double quote and the
    replacement [&quot;]: every double quote becomes the entity. *)
Definition escape_quotes (s : jsstring) : jsstring :=
  flat_map (fun c => if N.eqb c dq then lit "&quot;" else [c]) s.

Definition card_title (a : article) : jsstring :=
  slice0 80 (escape_quotes (or_else (title a) [])).


Definition card_desc (a : article) : jsstring :=
  slice0 200 (escape_quotes
    (or_else (or_opt (description a) (content a))
             [45236; 50857; 32; 50630; 51020]%N)).

Definition card_source (a : article) : jsstring :=
  or_else (match source a with Some s => name s | None => None end)
          (lit "News").

Definition card_url (a : article) : jsstring :=
  or_else (url a) (lit "#").

(** A quoted attribute value of the template. *)
Definition quoted (s : string) : jsstring := dq :: lit s ++ [dq].

(** A line of the template: the line break and the indentation. *)
Definition line (indent : nat) (s : jsstring) : jsstring :=
  nl :: spaces indent ++ s.

Definition card (emoji : jsstring) (a : article) : jsstring :=
  line 16 (lit "<div class=" ++ quoted "card fade-in" ++ lit ">")
  ++ line 20 (lit "<div class=" ++ quoted "card-image" ++ lit ">"
              ++ emoji ++ lit "</div>")
  ++ line 20 (lit "<div class=" ++ quoted "card-content" ++ lit ">")
  ++ line 24 (lit "<div class=" ++ quoted "card-meta" ++ lit ">"
              ++ formatDate (publishedAt a) ++ [32; 183; 32]%N
              ++ card_source a ++ lit "</div>")
  ++ line 24 (lit "<h3 class=" ++ quoted "card-title" ++ lit ">"
              ++ card_title a ++ lit "</h3>")
  ++ line 24 (lit "<p class=" ++ quoted "card-summary" ++ lit ">"
              ++ card_desc a ++ lit "</p>")
  ++ line 24 (lit "<div class=" ++ quoted "card-footer" ++ lit ">")
  ++ line 28 (lit "<span class=" ++ quoted "card-tag"
              ++ lit ">Latest News</span>")
  ++ line 28 (lit "<a href=" ++ dq :: card_url a ++ dq
              :: lit " class=" ++ quoted "read-more" ++ lit " target="
              ++ quoted "_blank" ++ lit ">Read More</a>")
  ++ line 24 (lit "</div>")
  ++ line 20 (lit "</div>")
  ++ line 16 (lit "</div>").

(** [parts.join('\n')] *)
Fixpoint join_lines (parts : list jsstring) : jsstring :=
  match parts with
  | [] => []
  | [p] => p
  | p :: rest => p ++ nl :: join_lines rest
  end.

Definition default_emoji : jsstring := [55357; 56560]%N.

Definition buildCards (articles : list article) (emoji : jsstring)
  : jsstring :=
  match articles with
  | [] => []
  | _ => join_lines (map (card emoji) articles)
  end.
End WithRuntime.

(** The characters with a meaning in a pattern. [replaceSection] puts the
    section id into the pattern source as it is; an id without them stands
    for itself. *)
Definition is_syntax_char (c : char) : bool :=
  existsb (N.eqb c) (lit "\^$.*+?()[]{}|").

Definition literal_id (sectionId : jsstring) : bool :=
  forallb (fun c => negb (is_syntax_char c)) sectionId.

Definition close_div : jsstring := lit "</div>".

(** The three capture groups of the pattern of [replaceSection], compiled
    with the [s] flag, for a section id that stands for itself. *)
Definition section_open (sectionId : jsstring) : segment :=
  [ ALit (lit "<div id=" ++ dq :: sectionId ++ dq :: lit " class="
          ++ dq :: lit "section");
    AStar true (CNot dq);
    ALit (dq :: lit ">");
    AStar false (CDot true);
    ALit (lit "<div class=" ++ dq :: lit "card-grid" ++ dq :: lit ">") ].

Definition section_old : segment := [ AStar false (CDot true) ].

Definition section_close : segment :=
  [ ALit close_div; AStar true CSpace;
    ALit close_div; AStar true CSpace;
    ALit close_div ].

Definition section_regex (sectionId : jsstring) : regex :=
  [ section_open sectionId; section_old; section_close ].

(** The replacement callback [(match, open, _old, close) => ...]. *)
Definition section_replacement (newCards : jsstring)
           (caps : list jsstring) : jsstring :=
  match caps with
  | [open; _old; close] =>
      open ++ nl :: newCards ++ nl :: spaces 12 ++ close
  | _ => concat caps
  end.

Definition replaceSection (html sectionId newCards : jsstring) : jsstring :=
  Regex.replace (section_regex sectionId)
                (fun _ caps _ => section_replacement newCards caps) html.

Definition label : jsstring := lit "Last Updated: ".

(** [/Last Updated: [^<]+/] *)
Definition last_updated_regex : regex :=
  [ [ ALit label; APlus true (CNot lt) ] ].

Definition updateLastModified (rt : runtime) (html : jsstring) : jsstring :=
  let dateStr := toLocaleDateString_en_US (now rt) in
  Regex.replace_str last_updated_regex (label ++ dateStr) html.

(** What a run did to index.html, and how it ended. *)
Inductive disk_effect :=
| Untouched
| Written (html : jsstring)
| WriteFailed.

Inductive ending :=
| Completed          (* the try block ran to its end *)
| Caught (e : error) (* the catch block logged the error *)
| NeverSettles.      (* a fetch never settled: the await never resumes *)

Record run := { disk : disk_effect; ended : ending }.

Definition robot : jsstring := [55358; 56598]%N.
Definition microscope : jsstring := [55357; 56620]%N.

Definition main (rt : runtime) : run :=
  let fromDate := two_weeks_ago_iso rt in
  match Promise_all (fetchNews rt QUERIES_us fromDate)
                    (fetchNews rt QUERIES_china fromDate) with
  | Pending => {| disk := Untouched; ended := NeverSettles |}
  | Rejected e => {| disk := Untouched; ended := Caught e |}
  | Resolved (usArticles, chinaArticles) =>
      match INDEX_html rt with
      | None => {| disk := Untouched; ended := Caught IOError |}
      | Some html =>
          let html :=
            match usArticles with
            | [] => html
            | _ => replaceSection html (lit "us") (buildCards rt usArticles robot)
            end in
          let html :=
            match chinaArticles with
            | [] => html
            | _ => replaceSection html (lit "china")
                                  (buildCards rt chinaArticles microscope)
            end in
          let html := updateLastModified rt html in
          if write_succeeds rt
          then {| disk := Written html; ended := Completed |}
          else {| disk := WriteFailed; ended := Caught IOError |}
      end
  end.

End Updater.

(* ------------------------------------------------------------------ *)
(** ** Node's [path] module on a POSIX host

    [path.join] and [path.extname] are the runtime's; the handler of
    server.js is written against them. They are given here by what they
    compute: [join] normalizes segment by segment, [extname] looks at the
    last segment. *)

Module NodePath.

Definition is_slash (c : char) : bool := N.eqb c slash.

Fixpoint take_while (p : char -> bool) (s : jsstring) : jsstring :=
  match s with
  | c :: s' => if p c then c :: take_while p s' else []
  | [] => []
  end.

Fixpoint drop_while (p : char -> bool) (s : jsstring) : jsstring :=
  match s with
  | c :: s' => if p c then drop_while p s' else s
  | [] => []
  end.

(** [path.split('/')]: the segments between the separators. *)
Fixpoint split_slash (s : jsstring) : list jsstring :=
  match s with
  | [] => [[]]
  | c :: s' =>
      if is_slash c then [] :: split_slash s'
      else match split_slash s' with
           | seg :: segs => (c :: seg) :: segs
           | [] => [[c]]
           end
  end.

(** No separator in [w]: a single segment. *)
Definition no_slash (w : jsstring) : bool :=
  forallb (fun c => negb (is_slash c)) w.

Definition dot_seg : jsstring := [dot].
Definition dotdot_seg : jsstring := [dot; dot].

(** One segment against the segments kept so far (the last one first):
    empty segments and [.] are dropped, [..] removes the segment before it,
    or is kept on a relative path that has none left. *)
Definition push_segment (allowAboveRoot : bool)
           (kept : list jsstring) (seg : jsstring) : list jsstring :=
  if jsstring_eqb seg [] || jsstring_eqb seg dot_seg then kept
  else if jsstring_eqb seg dotdot_seg then
    match kept with
    | top :: below =>
        if jsstring_eqb top dotdot_seg
        then (if allowAboveRoot then dotdot_seg :: kept else kept)
        else below
    | [] => if allowAboveRoot then [dotdot_seg] else []
    end
  else seg :: kept.

Fixpoint join_slash (segs : list jsstring) : jsstring :=
  match segs with
  | [] => []
  | [seg] => seg
  | seg :: rest => seg ++ slash :: join_slash rest
  end.

Definition normalizeString (path : jsstring) (allowAboveRoot : bool)
  : jsstring :=
  join_slash (rev (fold_left (push_segment allowAboveRoot)
                             (split_slash path) [])).

Definition ends_with_slash (path : jsstring) : bool :=
  match rev path with
  | c :: _ => is_slash c
  | [] => false
  end.

Definition normalize (path : jsstring) : jsstring :=
  match path with
  | [] => [dot]
  | c :: _ =>
      let isAbsolute := is_slash c in
      let trailingSeparator := ends_with_slash path in
      match normalizeString path (negb isAbsolute) with
      | [] =>
          if isAbsolute then [slash]
          else if trailingSeparator then [dot; slash] else [dot]
      | p =>
          (if isAbsolute then [slash] else [])
          ++ p ++ (if trailingSeparator then [slash] else [])
      end
  end.

(** [path.join(a, b)] *)
Definition join (a b : jsstring) : jsstring :=
  match a, b with
  | [], [] => [dot]
  | [], _ => normalize b
  | _, [] => normalize a
  | _, _ => normalize (a ++ slash :: b)
  end.

(** The last segment of [path], trailing separators aside, read from its
    end. *)
Definition rev_basename (path : jsstring) : jsstring :=
  take_while (fun c => negb (is_slash c)) (drop_while is_slash (rev path)).

(** [path.extname(path)]: from the last dot of the last segment to its end;
    empty when that segment has no dot, starts at its only dot, or is
    [..]. *)
Definition extname (path : jsstring) : jsstring :=
  let rbase := rev_basename path in
  let rext := take_while (fun c => negb (N.eqb c dot)) rbase in
  match drop_while (fun c => negb (N.eqb c dot)) rbase with
  | [] => []                               (* no dot *)
  | _ :: [] => []                          (* the segment starts at its last dot *)
  | _ :: rbefore =>
      if jsstring_eqb rbefore [dot] && jsstring_eqb rext [] then []
      else dot :: rev rext
  end.

End NodePath.

(* ------------------------------------------------------------------ *)
(** ** server.js *)

Module Server.

Inductive fs_error := ENOENT | EACCES | EISDIR | EOTHER.

Inductive read_result :=
| ReadOk (data : jsstring)
| ReadErr (err : fs_error).

(** What the handler runs against: the directory of the script and the
    files as [fs.readFile(path, 'utf-8', ...)] reports them. *)
Record host := {
  dirname : jsstring;
  readFile : jsstring -> read_result
}.

Record response := {
  statusCode : nat;
  contentType : jsstring;
  body : jsstring
}.

Definition PORT : N := 8080%N.

Definition text_html : jsstring := lit "text/html; charset=utf-8".
Definition text_css : jsstring := lit "text/css; charset=utf-8".
Definition application_javascript : jsstring :=
  lit "application/javascript; charset=utf-8".

Definition not_found_body : jsstring :=
  lit "<h1>404 - "
  ++ [54028; 51068; 51012; 32; 52286; 51012; 32; 49688; 32;
      50630; 49845; 45768; 45796]%N
  ++ lit "</h1>".

Definition resolve_path (h : host) (url : jsstring) : jsstring :=
  let filePath := if jsstring_eqb url (lit "/") then lit "/index.html" else url in
  NodePath.join (dirname h) filePath.

(** The request handler given to [http.createServer], as a function of the
    request's url. *)
Definition handler (h : host) (url : jsstring) : response :=
  let filePath := resolve_path h url in
  match readFile h filePath with
  | ReadErr _ =>
      {| statusCode := 404; contentType := text_html; body := not_found_body |}
  | ReadOk data =>
      let ext := NodePath.extname filePath in
      let contentType := text_html in
      let contentType :=
        if jsstring_eqb ext (lit ".css") then text_css else contentType in
      let contentType :=
        if jsstring_eqb ext (lit ".js") then application_javascript
        else contentType in
      {| statusCode := 200; contentType := contentType; body := data |}
  end.

End Server.

(* ------------------------------------------------------------------ *)
(** ** Concrete documents, articles and runtimes, for the examples *)

Module Samples.
Import Updater.

Definition feb18 : date := {| year := 2026; mon := February; day := 18 |}.
Definition nov2 : date := {| year := 2026; mon := November; day := 2 |}.

Definition article1 : article :=
  {| title := Some (lit "Waymo opens its simulator");
     description := Some (lit "A short summary.");
     content := None;
     publishedAt := Some (lit "2026-02-18T09:00:00Z");
     source := Some {| name := Some (lit "Wire") |};
     url := Some (lit "https://example.org/a") |}.

(** A section of the page as the pattern expects it. *)
Definition section (sectionId inner : jsstring) : jsstring :=
  lit "<div id=" ++ dq :: sectionId ++ dq :: lit " class=" ++ dq
  :: lit "section" ++ dq :: lit "><div class=" ++ dq :: lit "container"
  ++ dq :: lit "><div class=" ++ dq :: lit "card-grid" ++ dq :: lit ">"
  ++ inner ++ lit "</div></div></div>".

Definition footer : jsstring :=
  lit "<p>Last Updated: January 1, 2020</p>".

Definition page : jsstring :=
  lit "<body>" ++ section (lit "us") (lit "OLD") ++ footer ++ lit "</body>".

(** A page on which the pattern for [us] matches twice. *)
Definition page_two_sections : jsstring :=
  lit "<body>" ++ section (lit "us") (lit "ONE")
  ++ section (lit "us") (lit "TWO") ++ lit "</body>".

Definition ok_body : jsstring := lit "{ok}".
Definition bad_body : jsstring := lit "<html>502</html>".

(** A provider that answers every request with [articles]. *)
Definition runtime_with (key : jsstring) (body : jsstring)
           (parsed : option payload) (doc : option jsstring) : runtime :=
  {| NEWS_API_KEY := key;
     https_get := fun _ => HttpEnd body;
     JSON_parse := fun data => if jsstring_eqb data body then parsed else None;
     Date_parse := fun x => match x with Some (_ :: _) => Some feb18 | _ => None end;
     now := nov2;
     two_weeks_ago_iso := lit "2026-10-19";
     INDEX_html := doc;
     write_succeeds := true |}.

Definition ok_payload (l : list article) : payload :=
  PValue (Some (lit "ok")) None (Some l).

Definition runtime1 : runtime :=
  runtime_with (lit "key") ok_body (Some (ok_payload [article1])) (Some page).

Definition cards1 : jsstring := buildCards runtime1 [article1] robot.



(** An article whose url and source name hold a double quote. *)
Definition article_quoted_url : article :=
  {| title := Some (lit "T"); description := None; content := None;
     publishedAt := None;
     source := Some {| name := Some (lit "A" ++ dq :: lit "B") |};
     url := Some (lit "x" ++ dq :: lit " onclick=" ++ dq :: lit "y") |}.

(** The provider answers with a body that is not JSON. *)
Definition runtime_bad_body : runtime :=
  runtime_with (lit "key") bad_body None (Some page).

(** The provider answers with the JSON text [null]. *)
Definition runtime_null : runtime :=
  runtime_with (lit "key") (lit "null") (Some PNull) (Some page).

(** The provider reports an error status. *)
Definition runtime_error_status : runtime :=
  runtime_with (lit "key") (lit "{error}")
    (Some (PValue (Some (lit "error")) (Some (lit "rateLimited")) None))
    (Some page).

(** The provider answers with six articles. *)
Definition runtime_six : runtime :=
  runtime_with (lit "key") ok_body
    (Some (ok_payload (repeat article1 6))) (Some page).

(** No credential in the environment. *)
Definition runtime_no_key : runtime :=
  runtime_with [] ok_body (Some (ok_payload [article1])) (Some page).

(** A site directory with an index page and a style sheet. *)
Definition site : Server.host :=
  {| Server.dirname := lit "/srv/site";
     Server.readFile := fun path =>
       if jsstring_eqb path (lit "/srv/site/index.html")
       then Server.ReadOk page
       else if jsstring_eqb path (lit "/srv/site/styles.css")
       then Server.ReadOk (lit "body { margin: 0 }")
       else if jsstring_eqb path (lit "/srv/site/private")
       then Server.ReadErr Server.EACCES
       else Server.ReadErr Server.ENOENT |}.

(** An article whose title and description hold markup but no double
    quote. *)
Definition article_markup : article :=
  {| title := Some (lit "<b>Fast</b> & cheap");
     description := Some (lit "1 < 2");
     content := Some (lit "unused");
     publishedAt := None; source := None; url := None |}.

(** An article with every field missing. *)
Definition article_blank : article :=
  {| title := None; description := None; content := None;
     publishedAt := None; source := None; url := None |}.

(** The provider is unreachable. *)
Definition runtime_offline : runtime :=
  {| NEWS_API_KEY := lit "key";
     https_get := fun _ => HttpError;
     JSON_parse := fun _ => None;
     Date_parse := fun _ => None;
     now := nov2;
     two_weeks_ago_iso := lit "2026-10-19";
     INDEX_html := Some page;
     write_succeeds := true |}.

(** The provider accepts the connection and never answers. *)
Definition runtime_silent : runtime :=
  {| NEWS_API_KEY := lit "key";
     https_get := fun _ => HttpSilent;
     JSON_parse := fun _ => None;
     Date_parse := fun _ => None;
     now := nov2;
     two_weeks_ago_iso := lit "2026-10-19";
     INDEX_html := Some page;
     write_succeeds := true |}.

(** A page whose label is followed by a tag at once. *)
Definition page_label_then_tag : jsstring :=
  lit "<p>Last Updated: <span>soon</span></p>".

(** A host whose site directory has a file next to it. *)
Definition host_with_neighbour : Server.host :=
  {| Server.dirname := lit "/site";
     Server.readFile := fun path =>
       if jsstring_eqb path (lit "/secret.txt")
       then Server.ReadOk (lit "top secret")
       else if jsstring_eqb path (lit "/site/app.js")
       then Server.ReadOk (lit "let x = 1;")
       else if jsstring_eqb path (lit "/site/logo.png")
       then Server.ReadOk (lit "PNG")
       else Server.ReadErr Server.ENOENT |}.

End Samples.

(* ------------------------------------------------------------------ *)
(** ** The matcher finds exactly the matches of the pattern's language *)

Module RegexFacts.

Lemma strip_prefix_app (p r : jsstring) : strip_prefix p (p ++ r) = Some r.
Proof.
  induction p as [|c p IH]; simpl; [reflexivity|].
  now rewrite N.eqb_refl.
Qed.

Lemma strip_prefix_inv (p s r : jsstring) :
  strip_prefix p s = Some r -> s = p ++ r.
Proof.
  revert s; induction p as [|c p IH]; simpl; intros s H.
  - now inversion H.
  - destruct s as [|d s]; [discriminate|].
    destruct (N.eqb_spec c d) as [->|]; [|discriminate].
    now rewrite (IH _ H).
Qed.

Lemma strip_prefix_None (p s : jsstring) :
  strip_prefix p s = None -> forall r, s <> p ++ r.
Proof.
  intros H r ->. now rewrite strip_prefix_app in H.
Qed.

Section Backtracking.
Context {A : Type}.
Implicit Types (k : jsstring -> option A) (s w : jsstring).

Lemma star_greedy_sound cl k s r :
  star_greedy cl k s = Some r ->
  exists w rest, s = w ++ rest /\ forallb (in_class cl) w = true
                 /\ k rest = Some r.
Proof.
  induction s as [|c s IH]; simpl; intros H.
  - now exists [], [].
  - destruct (in_class cl c) eqn:Hc.
    + destruct (star_greedy cl k s) as [r'|] eqn:Hs.
      * inversion H; subst r'.
        destruct (IH eq_refl) as (w & rest & -> & Hw & Hk).
        exists (c :: w), rest. simpl. now rewrite Hc, Hw.
      * now exists [], (c :: s).
    + now exists [], (c :: s).
Qed.

Lemma star_greedy_continue cl k s :
  k s <> None -> star_greedy cl k s <> None.
Proof.
  destruct s as [|c s]; simpl; [easy|].
  destruct (in_class cl c); [|easy].
  now destruct (star_greedy cl k s).
Qed.

Lemma star_greedy_complete cl k w rest :
  forallb (in_class cl) w = true -> k rest <> None ->
  star_greedy cl k (w ++ rest) <> None.
Proof.
  induction w as [|c w IH]; simpl; intros Hw Hk.
  - now apply star_greedy_continue.
  - apply andb_prop in Hw as [Hc Hw]. rewrite Hc.
    specialize (IH Hw Hk).
    now destruct (star_greedy cl k (w ++ rest)).
Qed.

Lemma star_lazy_sound cl k s r :
  star_lazy cl k s = Some r ->
  exists w rest, s = w ++ rest /\ forallb (in_class cl) w = true
                 /\ k rest = Some r.
Proof.
  induction s as [|c s IH]; simpl; intros H.
  - destruct (k []) eqn:Hk; [|discriminate].
    exists [], []. now rewrite Hk.
  - destruct (k (c :: s)) eqn:Hk.
    + exists [], (c :: s). now rewrite Hk.
    + destruct (in_class cl c) eqn:Hc; [|discriminate].
      destruct (IH H) as (w & rest & -> & Hw & Hr).
      exists (c :: w), rest. simpl. now rewrite Hc, Hw.
Qed.

Lemma star_lazy_complete cl k w rest :
  forallb (in_class cl) w = true -> k rest <> None ->
  star_lazy cl k (w ++ rest) <> None.
Proof.
  induction w as [|c w IH]; simpl; intros Hw Hk.
  - destruct rest; simpl; now destruct (k _).
  - apply andb_prop in Hw as [Hc Hw]. rewrite Hc.
    destruct (k (c :: w ++ rest)); [easy|]. now apply IH.
Qed.

Lemma star_sound g cl k s r :
  star g cl k s = Some r ->
  exists w rest, s = w ++ rest /\ forallb (in_class cl) w = true
                 /\ k rest = Some r.
Proof.
  destruct g; [apply star_greedy_sound | apply star_lazy_sound].
Qed.

Lemma star_complete g cl k w rest :
  forallb (in_class cl) w = true -> k rest <> None ->
  star g cl k (w ++ rest) <> None.
Proof.
  destruct g; [apply star_greedy_complete | apply star_lazy_complete].
Qed.

Lemma match_atoms_sound atoms : forall s k r,
  match_atoms atoms s k = Some r ->
  exists w rest, s = w ++ rest /\ atoms_lang atoms w /\ k rest = Some r.
Proof.
  induction atoms as [|a atoms IH]; simpl; intros s k r H.
  - exists [], s. repeat split; [constructor | assumption].
  - destruct a as [l | g cl | g cl].
    + destruct (strip_prefix l s) as [s'|] eqn:Hp; [|discriminate].
      apply strip_prefix_inv in Hp as ->.
      destruct (IH _ _ _ H) as (w & rest & -> & Hw & Hk).
      exists (l ++ w), rest. rewrite app_assoc. repeat split; [|assumption].
      constructor; [constructor | assumption].
    + apply star_sound in H as (w1 & s' & -> & Hw1 & H).
      destruct (IH _ _ _ H) as (w & rest & -> & Hw & Hk).
      exists (w1 ++ w), rest. rewrite app_assoc. repeat split; [|assumption].
      constructor; [now constructor | assumption].
    + destruct s as [|c s]; [discriminate|].
      destruct (in_class cl c) eqn:Hc; [|discriminate].
      apply star_sound in H as (w1 & s' & -> & Hw1 & H).
      destruct (IH _ _ _ H) as (w & rest & -> & Hw & Hk).
      exists ((c :: w1) ++ w), rest. rewrite <- app_assoc.
      repeat split; [|assumption].
      constructor; [|assumption].
      constructor; [discriminate | simpl; now rewrite Hc].
Qed.

Lemma match_atoms_complete atoms w :
  atoms_lang atoms w ->
  forall rest k, k rest <> None -> match_atoms atoms (w ++ rest) k <> None.
Proof.
  induction 1 as [|a atoms w1 w2 Ha _ IH]; simpl; intros rest k Hk;
    [assumption|].
  rewrite <- app_assoc.
  destruct Ha as [l | g cl w Hw | g cl w Hne Hw].
  - rewrite strip_prefix_app. now apply IH.
  - apply star_complete; [assumption | now apply IH].
  - destruct w as [|c w]; [easy|]. simpl in *.
    apply andb_prop in Hw as [Hc Hw]. rewrite Hc.
    apply star_complete; [assumption | now apply IH].
Qed.
End Backtracking.

Lemma firstn_consumed (w rest : jsstring) :
  firstn (length (w ++ rest) - length rest) (w ++ rest) = w.
Proof.
  rewrite length_app, Nat.add_sub.
  rewrite firstn_app, Nat.sub_diag, firstn_all. simpl. apply app_nil_r.
Qed.

Lemma match_segs_sound segs : forall s caps tl,
  match_segs segs s = Some (caps, tl) ->
  s = concat caps ++ tl /\ segs_lang segs caps.
Proof.
  induction segs as [|g gs IH]; simpl; intros s caps tl H.
  - inversion H; subst. split; [reflexivity | constructor].
  - apply match_atoms_sound in H as (w & rest & -> & Hw & H).
    destruct (match_segs gs rest) as [[caps' tl']|] eqn:Hgs; [|discriminate].
    inversion H; subst caps tl'; clear H.
    rewrite firstn_consumed.
    destruct (IH _ _ _ Hgs) as [-> Hl]. simpl.
    rewrite <- app_assoc. split; [reflexivity | now constructor].
Qed.

Lemma match_segs_complete segs ws :
  segs_lang segs ws ->
  forall tl, match_segs segs (concat ws ++ tl) <> None.
Proof.
  induction 1 as [|g gs w ws Hw _ IH]; simpl; intros tl; [discriminate|].
  rewrite <- app_assoc. apply match_atoms_complete; [assumption|].
  specialize (IH tl). now destruct (match_segs gs (concat ws ++ tl)) as [[]|].
Qed.

Lemma match_at_0 segs s :
  match_at segs s 0 <-> match_segs segs s <> None.
Proof.
  split.
  - intros (b & ws & a & -> & Hb & Hl).
    destruct b; [|discriminate]. simpl. now apply match_segs_complete.
  - destruct (match_segs segs s) as [[caps tl]|] eqn:H; [intros _|easy].
    apply match_segs_sound in H as [-> Hl].
    now exists [], caps, tl.
Qed.

Lemma match_at_S segs c s n :
  match_at segs (c :: s) (S n) <-> match_at segs s n.
Proof.
  split.
  - intros (b & ws & a & E & Hb & Hl).
    destruct b as [|c' b]; [discriminate|]. simpl in E, Hb.
    inversion E; subst. exists b, ws, a. repeat split; [lia | assumption].
  - intros (b & ws & a & -> & Hb & Hl).
    exists (c :: b), ws, a. simpl. repeat split; [lia | assumption].
Qed.

(** [exec] returns a match of the pattern, and the leftmost one. *)
Lemma exec_sound segs : forall s b caps a,
  exec segs s = Some (b, caps, a) ->
  s = b ++ concat caps ++ a /\ segs_lang segs caps
  /\ forall n, n < length b -> ~ match_at segs s n.
Proof.
  induction s as [|c s IH]; simpl; intros b caps a H.
  - destruct (match_segs segs []) as [[caps' tl]|] eqn:Hm; [|discriminate].
    inversion H; subst. apply match_segs_sound in Hm as [E Hl].
    repeat split; [exact E | exact Hl | simpl; lia].
  - destruct (match_segs segs (c :: s)) as [[caps' tl]|] eqn:Hm.
    + inversion H; subst. apply match_segs_sound in Hm as [E Hl].
      repeat split; [exact E | exact Hl | simpl; lia].
    + destruct (exec segs s) as [[[b' caps'] a']|] eqn:He; [|discriminate].
      inversion H; subst; clear H.
      destruct (IH _ _ _ eq_refl) as (E & Hl & Hmin).
      repeat split; [simpl; now rewrite <- E | exact Hl |].
      intros [|n] Hn.
      * rewrite match_at_0. now rewrite Hm.
      * rewrite match_at_S. apply Hmin. simpl in Hn. lia.
Qed.

(** [exec] fails only when the pattern matches nowhere. *)
Lemma exec_None segs : forall s,
  exec segs s = None -> forall n, ~ match_at segs s n.
Proof.
  induction s as [|c s IH]; simpl; intros H n.
  - destruct (match_segs segs []) as [[caps tl]|] eqn:Hm; [discriminate|].
    intros (b & ws & a & E & Hb & Hl).
    symmetry in E. apply app_eq_nil in E as [-> E]. simpl in Hb; subst n.
    assert (M : match_at segs [] 0) by (exists [], ws, a; now rewrite E).
    apply match_at_0 in M. now rewrite Hm in M.
  - destruct (match_segs segs (c :: s)) as [[caps tl]|] eqn:Hm; [discriminate|].
    destruct (exec segs s) as [[[b caps] a]|] eqn:He; [discriminate|].
    destruct n as [|n].
    + rewrite match_at_0. now rewrite Hm.
    + rewrite match_at_S. now apply IH.
Qed.

Lemma exec_complete segs s n :
  match_at segs s n -> exec segs s <> None.
Proof.
  intros M E. exact (exec_None _ _ E n M).
Qed.

(** The match [exec] returns is the one [match_segs] finds where it starts. *)
Lemma exec_inv segs : forall s b caps a,
  exec segs s = Some (b, caps, a) ->
  exists s', s = b ++ s' /\ match_segs segs s' = Some (caps, a).
Proof.
  induction s as [|c s IH]; simpl; intros b caps a H.
  - destruct (match_segs segs []) as [[caps' tl]|] eqn:Hm; [|discriminate].
    inversion H; subst. now exists [].
  - destruct (match_segs segs (c :: s)) as [[caps' tl]|] eqn:Hm.
    + inversion H; subst. now exists (c :: s).
    + destruct (exec segs s) as [[[b' caps'] a']|] eqn:He; [|discriminate].
      inversion H; subst; clear H.
      destruct (IH _ _ _ eq_refl) as (s' & -> & Hs').
      now exists s'.
Qed.

(** Before a continuation that cannot fail, a greedy run is maximal. *)
Lemma star_greedy_max {A} cl (k : jsstring -> option A) :
  (forall s, k s <> None) ->
  forall s r, star_greedy cl k s = Some r ->
  exists w rest, s = w ++ rest /\ forallb (in_class cl) w = true
                 /\ k rest = Some r
                 /\ match rest with
                    | [] => True
                    | c :: _ => in_class cl c = false
                    end.
Proof.
  intros Hk. induction s as [|c s IH]; simpl; intros r H.
  - now exists [], [].
  - destruct (in_class cl c) eqn:Hc.
    + destruct (star_greedy cl k s) as [r'|] eqn:Hs.
      * inversion H; subst r'.
        destruct (IH _ eq_refl) as (w & rest & -> & Hw & Hr & Hmax).
        exists (c :: w), rest. simpl. now rewrite Hc, Hw.
      * exfalso. revert Hs. apply star_greedy_continue, Hk.
    + exists [], (c :: s). now rewrite Hc.
Qed.

Lemma get_substitution_plain matched before after t :
  ~ In dollar t -> get_substitution matched before after t = t.
Proof.
  induction t as [|c t IH]; simpl; intros Hn; [reflexivity|].
  destruct (N.eqb_spec c dollar) as [->|_]; [now destruct Hn; left|].
  rewrite IH; [reflexivity | tauto].
Qed.

(** Without a match, [replace] returns its input. *)
Lemma replace_no_match segs f s :
  (forall n, ~ match_at segs s n) -> replace segs f s = s.
Proof.
  intros Hno. unfold replace.
  destruct (exec segs s) as [[[b caps] a]|] eqn:He; [|reflexivity].
  exfalso. apply exec_sound in He as (E & Hl & _).
  apply (Hno (length b)). now exists b, caps, a.
Qed.

(** With one, [replace] rewrites the leftmost match and nothing else. *)
Lemma replace_first_match segs f s n :
  match_at segs s n ->
  exists b caps a,
    s = b ++ concat caps ++ a /\ segs_lang segs caps /\ length b <= n
    /\ (forall m, m < length b -> ~ match_at segs s m)
    /\ match_segs segs (concat caps ++ a) = Some (caps, a)
    /\ replace segs f s = b ++ f b caps a ++ a.
Proof.
  intros M. unfold replace.
  destruct (exec segs s) as [[[b caps] a]|] eqn:He;
    [|now apply exec_complete in M].
  exists b, caps, a.
  destruct (exec_sound _ _ _ _ _ He) as (E & Hl & Hmin).
  destruct (exec_inv _ _ _ _ _ He) as (s' & E' & Hs').
  assert (s' = concat caps ++ a) as <-.
  { rewrite E in E'. now apply app_inv_head in E'. }
  repeat split; try assumption.
  destruct (Nat.le_gt_cases (length b) n) as [|Hlt]; [assumption|].
  now destruct (Hmin n Hlt).
Qed.

End RegexFacts.

(* ------------------------------------------------------------------ *)
(** ** Section replacement *)

Module SectionFacts.
Import Updater RegexFacts.

Lemma exec_match_at segs s n :
  match exec segs s with
  | Some (b, _, _) => Nat.eqb (length b) n
  | None => false
  end = true ->
  match_at segs s n.
Proof.
  destruct (exec segs s) as [[[b caps] a]|] eqn:H; [|discriminate].
  intros Hn. apply Nat.eqb_eq in Hn.
  apply exec_sound in H as (E & Hl & _). now exists b, caps, a.
Qed.

Lemma section_regex_caps sectionId caps :
  segs_lang (section_regex sectionId) caps ->
  exists open old close, caps = [open; old; close].
Proof.
  unfold section_regex. intros H.
  inversion H as [|? ? o ? _ H1]; subst.
  inversion H1 as [|? ? m ? _ H2]; subst.
  inversion H2 as [|? ? c ? _ H3]; subst.
  inversion H3; subst. now exists o, m, c.
Qed.

(** A match of the pattern begins with the section marker. *)
Lemma section_open_marker sectionId w :
  atoms_lang (section_open sectionId) w ->
  exists rest,
    w = (lit "<div id=" ++ dq :: sectionId ++ dq :: lit " class="
         ++ dq :: lit "section") ++ rest.
Proof.
  unfold section_open. intros H.
  inversion H as [|? ? w1 w2 Ha _]; subst.
  inversion Ha; subst. now exists w2.
Qed.

(** C2. When the section pattern for the id matches nowhere in the document,
    [replaceSection] returns the document as it was given, whatever the
    cards; the function has no failure case. *)
Theorem replaceSection_no_match html sectionId newCards :
  literal_id sectionId = true ->
  (forall n, ~ match_at (section_regex sectionId) html n) ->
  replaceSection html sectionId newCards = html.
Proof.
  intros _ Hno. unfold replaceSection. now apply replace_no_match.
Qed.

Lemma replaceSection_no_match_witness :
  replaceSection Samples.page (lit "china") (lit "NEW") = Samples.page.
Proof.
  apply replaceSection_no_match;
    [reflexivity | apply exec_None; vm_compute; reflexivity].
Defined.

(** A document without the section marker has no match of the pattern. *)
Lemma marker_absent_no_match html sectionId :
  ~ substring_of (lit "<div id=" ++ dq :: sectionId ++ dq :: lit " class="
                  ++ dq :: lit "section") html ->
  forall n, ~ match_at (section_regex sectionId) html n.
Proof.
  intros Habs n (b & ws & a & -> & _ & Hl). apply Habs.
  inversion Hl as [|? ? o ws' Ho _]; subst.
  apply section_open_marker in Ho as (rest & ->).
  exists b, (rest ++ concat ws' ++ a).
  now rewrite concat_cons, <- !app_assoc.
Qed.

(** A lazy run stops at the first place where the continuation succeeds. *)
Lemma star_lazy_min {A} cl (k : jsstring -> option A) : forall s r,
  star_lazy cl k s = Some r ->
  exists w rest,
    s = w ++ rest /\ forallb (in_class cl) w = true /\ k rest = Some r
    /\ forall w1 w2, w = w1 ++ w2 -> w2 <> [] -> k (w2 ++ rest) = None.
Proof.
  induction s as [|c s IH]; simpl; intros r H.
  - destruct (k []) eqn:Hk; [|discriminate].
    exists [], []. repeat split; [now rewrite Hk|].
    intros w1 w2 E. symmetry in E. apply app_eq_nil in E as [_ ->]. easy.
  - destruct (k (c :: s)) eqn:Hk.
    + exists [], (c :: s). repeat split; [now rewrite Hk|].
      intros w1 w2 E. symmetry in E. apply app_eq_nil in E as [_ ->]. easy.
    + destruct (in_class cl c) eqn:Hc; [|discriminate].
      destruct (IH _ H) as (w & rest & -> & Hw & Hr & Hmin).
      exists (c :: w), rest. simpl. rewrite Hc, Hw.
      repeat split; [assumption|].
      intros [|c1 w1] w2 E Hne.
      * simpl in E. subst w2. exact Hk.
      * inversion E as [[Ec Ew]]. exact (Hmin w1 w2 Ew Hne).
Qed.

Lemma match_segs_cons_inv g gs s w caps tl :
  match_segs (g :: gs) s = Some (w :: caps, tl) ->
  exists rest, s = w ++ rest /\ match_segs gs rest = Some (caps, tl).
Proof.
  cbn [match_segs]. intros H.
  apply match_atoms_sound in H as (w' & rest & -> & _ & H).
  destruct (match_segs gs rest) as [[caps' tl']|] eqn:Hgs; [|discriminate].
  rewrite firstn_consumed in H. inversion H; subst. now exists rest.
Qed.

(** The parts of a match of the section pattern, as the matcher picks them:
    [old] is followed by [close], and no earlier end of [old] would have
    been followed by a match of the closing group. *)
Lemma section_match_parts sectionId o m c a :
  match_segs (section_regex sectionId) (concat [o; m; c] ++ a)
  = Some ([o; m; c], a) ->
  forall w1 w2, m = w1 ++ w2 -> w2 <> [] ->
    match_segs [section_close] (w2 ++ c ++ a) = None.
Proof.
  unfold section_regex. intros H.
  apply match_segs_cons_inv in H as (rest1 & E1 & H).
  cbn [concat] in E1. rewrite app_nil_r, <- !app_assoc in E1.
  apply app_inv_head in E1. subst rest1.
  change (match_segs [section_old; section_close] (m ++ c ++ a))
    with (star_lazy (CDot true)
            (fun s' =>
               match match_segs [section_close] s' with
               | Some (caps, tl) =>
                   Some (firstn (length (m ++ c ++ a) - length s')
                                (m ++ c ++ a) :: caps, tl)
               | None => None
               end) (m ++ c ++ a)) in H.
  destruct (star_lazy_min _ _ _ _ H) as (w & rest & E & _ & Hk & Hmin).
  destruct (match_segs [section_close] rest) as [[caps' tl']|] eqn:Hc;
    [|discriminate].
  rewrite E, firstn_consumed in Hk. inversion Hk; subst; clear Hk.
  apply match_segs_sound in Hc as [-> _].
  cbn [concat] in E. rewrite app_nil_r in E.
  apply app_inv_head in E.
  intros w1 w2 Em Hne. specialize (Hmin w1 w2 Em Hne).
  cbn [concat] in Hmin. rewrite app_nil_r in Hmin.
  now destruct (match_segs [section_close] (w2 ++ c ++ a)) as [[]|].
Qed.

Lemma app_split_prefix (x y u v : jsstring) :
  x ++ y = u ++ v -> length u < length x ->
  exists z, x = u ++ z /\ z <> [] /\ v = z ++ y.
Proof.
  revert u. induction x as [|c x IH]; intros u E Hlen; [simpl in Hlen; lia|].
  destruct u as [|d u].
  - exists (c :: x). simpl in E. subst v. now repeat split.
  - simpl in E. inversion E; subst d.
    destruct (IH u H1) as (z & -> & Hz & ->); [simpl in Hlen; lia|].
    now exists z.
Qed.

Lemma section_regex_parts sectionId o m c :
  segs_lang (section_regex sectionId) [o; m; c] ->
  atoms_lang (section_open sectionId) o /\ atoms_lang section_close c.
Proof.
  unfold section_regex. intros Hl.
  inversion Hl as [|? ? ? ? Ho Hl1]; subst.
  inversion Hl1 as [|? ? ? ? _ Hl2]; subst.
  inversion Hl2 as [|? ? ? ? Hc _]; subst.
  now split.
Qed.

Lemma dotall_any (w : jsstring) : atoms_lang section_old w.
Proof.
  unfold section_old. rewrite <- (app_nil_r w).
  constructor; [|constructor]. constructor.
  induction w as [|c w IH]; [reflexivity | exact IH].
Qed.

(** Two runs over a class that are ended by the same character outside the
    class are the same run. *)
Lemma run_unique (p : char -> bool) q : forall (w r x y : jsstring),
  forallb p w = true -> forallb p r = true -> p q = false ->
  w ++ q :: x = r ++ q :: y -> w = r /\ x = y.
Proof.
  induction w as [|c w IH]; intros [|d r] x y Hw Hr Hq E;
    cbn [app forallb] in *.
  - inversion E. now split.
  - inversion E as [[Eq Ex]]. apply andb_prop in Hr as [Hd _]. congruence.
  - inversion E as [[Eq Ex]]. apply andb_prop in Hw as [Hc _]. congruence.
  - inversion E as [[Ec Et]].
    apply andb_prop in Hw as [_ Hw]. apply andb_prop in Hr as [_ Hr].
    destruct (IH r x y Hw Hr Hq Et) as [-> ->]. now split.
Qed.

Lemma app_split_le (x y u v : jsstring) :
  x ++ y = u ++ v -> length u <= length x ->
  exists z, x = u ++ z /\ v = z ++ y.
Proof.
  revert u. induction x as [|c x IH]; intros u E Hlen.
  - destruct u; [|simpl in Hlen; lia]. now exists [].
  - destruct u as [|d u]; [now exists (c :: x)|].
    simpl in E, Hlen. inversion E as [[Ec Et]].
    destruct (IH u Et) as (z & -> & ->); [lia|]. now exists z.
Qed.

Lemma app_eq_length (x y u v : jsstring) :
  x ++ y = u ++ v -> length x = length u -> x = u /\ y = v.
Proof.
  intros E Hlen.
  destruct (app_split_le x y u v E) as (z & Ex & Ev); [lia|].
  assert (z = []) as ->.
  { apply (f_equal (@length _)) in Ex. rewrite length_app in Ex.
    destruct z; [reflexivity | simpl in Ex; lia]. }
  rewrite app_nil_r in Ex. now subst.
Qed.

(** The opening group of the pattern against a continuation [k]: the text
    it takes, and why it takes no less. The run after the marker is ended
    by the quote; the text up to the card grid tag is lazy, so at every
    earlier card grid tag the continuation has failed. *)
Lemma open_group_shape {A} H cl Q G (k : jsstring -> option A) T r :
  match_atoms [ALit H; AStar true cl; ALit Q; AStar false (CDot true); ALit G]
              T k = Some r ->
  exists w mid rest,
    T = H ++ w ++ Q ++ mid ++ G ++ rest
    /\ forallb (in_class cl) w = true
    /\ k rest = Some r
    /\ forall m1 m2 rest2, mid = m1 ++ m2 -> m2 <> [] ->
         m2 ++ G ++ rest = G ++ rest2 -> k rest2 = None.
Proof.
  cbn [match_atoms].
  destruct (strip_prefix H T) as [s1|] eqn:E1; [|discriminate].
  apply strip_prefix_inv in E1 as ->.
  intros Hm. apply star_sound in Hm as (w & s2 & -> & Hw & Hm).
  destruct (strip_prefix Q s2) as [s3|] eqn:E2; [|discriminate].
  apply strip_prefix_inv in E2 as ->.
  unfold star in Hm.
  destruct (star_lazy_min _ _ _ _ Hm) as (mid & s4 & -> & _ & Hk & Hmin).
  destruct (strip_prefix G s4) as [s5|] eqn:E3; [|discriminate].
  apply strip_prefix_inv in E3 as ->.
  exists w, mid, s5. repeat split; try assumption.
  intros m1 m2 rest2 Em Hne E.
  specialize (Hmin m1 m2 Em Hne). cbn beta in Hmin.
  now rewrite E, strip_prefix_app in Hmin.
Qed.

Lemma section_open_shape sectionId o :
  atoms_lang (section_open sectionId) o ->
  exists w mid,
    o = (lit "<div id=" ++ dq :: sectionId ++ dq :: lit " class="
         ++ dq :: lit "section")
        ++ w ++ (dq :: lit ">") ++ mid
        ++ (lit "<div class=" ++ dq :: lit "card-grid" ++ dq :: lit ">")
    /\ forallb (in_class (CNot dq)) w = true.
Proof.
  unfold section_open. intros H.
  inversion H as [|? ? w1 r1 H1 H2]; subst. inversion H1; subst.
  inversion H2 as [|? ? w2 r2 H3 H4]; subst.
  inversion H3 as [|? ? ? Hw2|]; subst.
  inversion H4 as [|? ? w3 r3 H5 H6]; subst. inversion H5; subst.
  inversion H6 as [|? ? w4 r4 _ H8]; subst.
  inversion H8 as [|? ? w5 r5 H9 H10]; subst.
  inversion H9; subst. inversion H10; subst.
  exists w2, w4. now rewrite app_nil_r.
Qed.

(** The opening part of the match the matcher returns is the shortest
    opening part of any match of the pattern that starts at the same
    place: it ends at the first card grid tag after the marker. *)
Lemma section_open_shortest sectionId o m c a :
  match_segs (section_regex sectionId) (concat [o; m; c] ++ a)
  = Some ([o; m; c], a) ->
  forall o' m' c' a',
    o ++ m ++ c ++ a = o' ++ m' ++ c' ++ a' ->
    atoms_lang (section_open sectionId) o' ->
    atoms_lang section_close c' ->
    length o <= length o'.
Proof.
  intros Hms o' m' c' a' ET Ho' Hc'.
  apply section_open_shape in Ho' as (w' & mid' & Eo' & Hw').
  assert (EC : concat [o; m; c] ++ a = o ++ m ++ c ++ a)
    by (cbn [concat]; now rewrite app_nil_r, <- !app_assoc).
  rewrite EC in Hms. clear EC.
  unfold section_regex in Hms.
  change (match_segs [section_open sectionId; section_old; section_close]
                     (o ++ m ++ c ++ a))
    with (match_atoms (section_open sectionId) (o ++ m ++ c ++ a)
            (fun rest =>
               match match_segs [section_old; section_close] rest with
               | Some (caps, tl) =>
                   Some (firstn (length (o ++ m ++ c ++ a) - length rest)
                                (o ++ m ++ c ++ a) :: caps, tl)
               | None => None
               end)) in Hms.
  unfold section_open in Hms.
  apply open_group_shape in Hms as (w & mid & rest & E & Hw & Hk & Hmin).
  set (Hd := lit "<div id=" ++ dq :: sectionId ++ dq :: lit " class="
             ++ dq :: lit "section") in *.
  set (G := lit "<div class=" ++ dq :: lit "card-grid" ++ dq :: lit ">") in *.
  destruct (match_segs [section_old; section_close] rest)
    as [[caps tl]|] eqn:Hrest; [|discriminate].
  assert (Eo : o = Hd ++ w ++ (dq :: lit ">") ++ mid ++ G).
  { inversion Hk as [[Ef Ecaps Etl]].
    transitivity (firstn (length (o ++ m ++ c ++ a) - length rest)
                         (o ++ m ++ c ++ a)); [now symmetry|].
    rewrite E.
    replace (Hd ++ w ++ (dq :: lit ">") ++ mid ++ G ++ rest)
      with ((Hd ++ w ++ (dq :: lit ">") ++ mid ++ G) ++ rest)
      by now rewrite <- !app_assoc.
    apply firstn_consumed. }
  rewrite E, Eo' in ET. rewrite <- !app_assoc in ET.
  apply app_inv_head in ET. cbn [app] in ET.
  apply (run_unique (in_class (CNot dq)) dq) in ET as [Ew ET];
    [|assumption|assumption|reflexivity].
  apply app_inv_head in ET.
  rewrite Eo, Eo', Ew, !length_app. cbn [length]. rewrite ?length_app.
  enough (length mid <= length mid') by lia.
  destruct (Nat.le_gt_cases (length mid) (length mid')) as [|Hlt];
    [assumption|].
  exfalso.
  destruct (app_split_prefix _ _ _ _ ET Hlt) as (z & Emid & Hz & Ez).
  specialize (Hmin mid' z (m' ++ c' ++ a') Emid Hz).
  rewrite <- Ez in Hmin. specialize (Hmin eq_refl).
  destruct (match_segs [section_old; section_close] (m' ++ c' ++ a'))
    as [[caps2 tl2]|] eqn:H2'; [discriminate|].
  revert H2'.
  pose proof (match_segs_complete [section_old; section_close] [m'; c']) as C.
  specialize (C (S_cons _ _ _ _ (dotall_any m')
                        (S_cons _ _ _ _ Hc' S_nil)) a').
  cbn [concat] in C. now rewrite app_nil_r, <- app_assoc in C.
Qed.

Lemma section_close_shape c :
  atoms_lang section_close c ->
  exists w1 w2,
    c = close_div ++ w1 ++ close_div ++ w2 ++ close_div
    /\ forallb (in_class CSpace) w1 = true
    /\ forallb (in_class CSpace) w2 = true.
Proof.
  unfold section_close. intros H1.
  inversion H1 as [|? ? a1 b1 A1 B1]; subst. inversion A1; subst.
  inversion B1 as [|? ? a2 b2 A2 B2]; subst.
  inversion A2 as [|? ? ? W2|]; subst.
  inversion B2 as [|? ? a3 b3 A3 B3]; subst. inversion A3; subst.
  inversion B3 as [|? ? a4 b4 A4 B4]; subst.
  inversion A4 as [|? ? ? W4|]; subst.
  inversion B4 as [|? ? a5 b5 A5 B5]; subst. inversion A5; subst.
  inversion B5; subst.
  exists a2, a4. now rewrite app_nil_r.
Qed.

(** A match of the closing group is fixed by where it starts. *)
Lemma section_close_unique c1 c2 r1 r2 :
  atoms_lang section_close c1 -> atoms_lang section_close c2 ->
  c1 ++ r1 = c2 ++ r2 -> c1 = c2 /\ r1 = r2.
Proof.
  intros H1 H2 E.
  apply section_close_shape in H1 as (w1 & w2 & -> & Hw1 & Hw2).
  apply section_close_shape in H2 as (x1 & x2 & -> & Hx1 & Hx2).
  rewrite <- !app_assoc in E. apply app_inv_head in E.
  change close_div with (lt :: lit "/div>") in E. cbn [app] in E.
  apply (run_unique (in_class CSpace) lt) in E as [-> E];
    [|assumption|assumption|reflexivity].
  apply app_inv_head in E.
  apply (run_unique (in_class CSpace) lt) in E as [-> E];
    [|assumption|assumption|reflexivity].
  apply app_inv_head in E. now split.
Qed.

(** The match that [replaceSection] rewrites, told apart from the other
    matches of the pattern without the matcher: it starts leftmost, its
    opening part is the shortest at that start, and its old content the
    shortest after that. *)
Lemma section_first_match html sectionId newCards n :
  match_at (section_regex sectionId) html n ->
  exists before open old close after,
    html = before ++ (open ++ old ++ close) ++ after
    /\ segs_lang (section_regex sectionId) [open; old; close]
    /\ length before <= n
    /\ (forall k, k < length before ->
                  ~ match_at (section_regex sectionId) html k)
    /\ (forall o' m' c' a',
          html = before ++ (o' ++ m' ++ c') ++ a' ->
          segs_lang (section_regex sectionId) [o'; m'; c'] ->
          length open <= length o'
          /\ length (open ++ old) <= length (o' ++ m'))
    /\ (forall x t y, old ++ close ++ after = x ++ t ++ y ->
          atoms_lang section_close t -> length old <= length x)
    /\ replaceSection html sectionId newCards
       = before ++ (open ++ nl :: newCards ++ nl :: spaces 12 ++ close)
                ++ after.
Proof.
  intros M. unfold replaceSection.
  destruct (replace_first_match _
              (fun _ caps _ => section_replacement newCards caps) _ _ M)
    as (b & caps & a & E & Hl & Hle & Hmin & Hms & R).
  destruct (section_regex_caps _ _ Hl) as (o & m & c & ->).
  exists b, o, m, c, a.
  pose proof (section_match_parts _ _ _ _ _ Hms) as Hold.
  pose proof (section_open_shortest _ _ _ _ _ Hms) as Hopen.
  assert (Hfirst : forall x t y, m ++ c ++ a = x ++ t ++ y ->
            atoms_lang section_close t -> length m <= length x).
  { intros x t y Ex Ht.
    destruct (Nat.le_gt_cases (length m) (length x)) as [|Hlt]; [assumption|].
    exfalso.
    destruct (app_split_prefix _ _ _ _ Ex Hlt) as (z & Em & Hz & Et).
    specialize (Hold x z Em Hz). rewrite <- Et in Hold.
    apply (match_segs_complete [section_close] [t]
             (S_cons _ _ _ _ Ht S_nil) y).
    cbn [concat]. rewrite app_nil_r. exact Hold. }
  simpl in E, R. rewrite app_nil_r in E.
  repeat split; try assumption.
  - destruct (section_regex_parts _ _ _ _ H0) as [Ho' Hc'].
    apply (Hopen o' m' c' a'); try assumption.
    rewrite E in H. apply app_inv_head in H. now rewrite <- !app_assoc in H.
  - destruct (section_regex_parts _ _ _ _ H0) as [Ho' Hc'].
    rewrite E in H. apply app_inv_head in H. rewrite <- !app_assoc in H.
    assert (Hlo : length o <= length o')
      by (apply (Hopen o' m' c' a'); assumption).
    symmetry in H.
    destruct (app_split_le _ _ _ _ H Hlo) as (z & -> & Ez).
    specialize (Hfirst (z ++ m') c' a').
    rewrite <- app_assoc in Hfirst. specialize (Hfirst Ez Hc').
    rewrite !length_app in *. lia.
Qed.

(** These facts fix the match: two decompositions of the document that
    both have them are the same. *)
Lemma section_first_match_unique html sectionId
      b1 o1 m1 c1 a1 b2 o2 m2 c2 a2 :
  html = b1 ++ (o1 ++ m1 ++ c1) ++ a1 ->
  html = b2 ++ (o2 ++ m2 ++ c2) ++ a2 ->
  segs_lang (section_regex sectionId) [o1; m1; c1] ->
  segs_lang (section_regex sectionId) [o2; m2; c2] ->
  (forall k, k < length b1 -> ~ match_at (section_regex sectionId) html k) ->
  (forall k, k < length b2 -> ~ match_at (section_regex sectionId) html k) ->
  (forall o' m' c' a',
     html = b1 ++ (o' ++ m' ++ c') ++ a' ->
     segs_lang (section_regex sectionId) [o'; m'; c'] ->
     length o1 <= length o' /\ length (o1 ++ m1) <= length (o' ++ m')) ->
  (forall o' m' c' a',
     html = b2 ++ (o' ++ m' ++ c') ++ a' ->
     segs_lang (section_regex sectionId) [o'; m'; c'] ->
     length o2 <= length o' /\ length (o2 ++ m2) <= length (o' ++ m')) ->
  b1 = b2 /\ o1 = o2 /\ m1 = m2 /\ c1 = c2 /\ a1 = a2.
Proof.
  intros E1 E2 L1 L2 F1 F2 S1 S2.
  assert (M1 : match_at (section_regex sectionId) html (length b1)).
  { exists b1, [o1; m1; c1], a1. cbn [concat].
    now rewrite app_nil_r, <- !app_assoc in *. }
  assert (M2 : match_at (section_regex sectionId) html (length b2)).
  { exists b2, [o2; m2; c2], a2. cbn [concat].
    now rewrite app_nil_r, <- !app_assoc in *. }
  assert (Hb : length b1 = length b2).
  { destruct (Nat.lt_trichotomy (length b1) (length b2)) as [H|[H|H]];
      [now destruct (F2 _ H) | assumption | now destruct (F1 _ H)]. }
  assert (E : b1 ++ (o1 ++ m1 ++ c1) ++ a1 = b2 ++ (o2 ++ m2 ++ c2) ++ a2)
    by congruence.
  apply app_eq_length in E as [<- E]; [|assumption].
  destruct (S1 o2 m2 c2 a2 E2 L2) as [Ha Hb1].
  destruct (S2 o1 m1 c1 a1 E1 L1) as [Ha' Hb2].
  rewrite <- !app_assoc in E.
  apply app_eq_length in E as [<- E]; [|lia].
  rewrite !length_app in Hb1, Hb2.
  apply app_eq_length in E as [<- E]; [|lia].
  destruct (section_regex_parts _ _ _ _ L1) as [_ C1].
  destruct (section_regex_parts _ _ _ _ L2) as [_ C2].
  apply section_close_unique in E as [<- <-]; try assumption.
  now repeat split.
Qed.

(** C9. When the section pattern matches somewhere, [replaceSection] rewrites
    one region only, the first match: the match that starts leftmost, with
    the shortest opening part at that start and the shortest old content
    after it. Such a match exists, and for every decomposition of the
    document into the text before such a match, its three parts and the
    text after it, the result keeps the text before and the text after as
    they are (later matches with it), and puts the opening part, the cards
    on lines of their own and the closing part in the place of the match. *)
Theorem replaceSection_first_match_only html sectionId newCards n :
  let first_match before open old close after :=
    html = before ++ (open ++ old ++ close) ++ after
    /\ segs_lang (section_regex sectionId) [open; old; close]
    /\ (forall k, k < length before ->
                  ~ match_at (section_regex sectionId) html k)
    /\ (forall o' m' c' a',
          html = before ++ (o' ++ m' ++ c') ++ a' ->
          segs_lang (section_regex sectionId) [o'; m'; c'] ->
          length open <= length o'
          /\ length (open ++ old) <= length (o' ++ m')) in
  literal_id sectionId = true ->
  match_at (section_regex sectionId) html n ->
  (exists before open old close after,
     first_match before open old close after /\ length before <= n)
  /\ (forall before open old close after,
        first_match before open old close after ->
        replaceSection html sectionId newCards
        = before ++ (open ++ nl :: newCards ++ nl :: spaces 12 ++ close)
                 ++ after).
Proof.
  intros first_match _ M.
  destruct (section_first_match html sectionId newCards n M)
    as (b & o & m & c & a & E & Hl & Hle & Hmin & Hsh & _ & R).
  split.
  - exists b, o, m, c, a. split; [|assumption]. unfold first_match.
    split; [assumption|]. split; [assumption|]. split; assumption.
  - intros b' o' m' c' a' (E' & Hl' & Hmin' & Hsh').
    destruct (section_first_match_unique html sectionId
                b' o' m' c' a' b o m c a E' E Hl' Hl Hmin' Hmin Hsh' Hsh)
      as (-> & -> & _ & -> & ->).
    exact R.
Qed.

Lemma replaceSection_first_match_only_witness :
  replaceSection Samples.page_two_sections (lit "us") (lit "NEW")
  = lit "<body>"
    ++ Samples.section (lit "us") (nl :: lit "NEW" ++ nl :: spaces 12)
    ++ Samples.section (lit "us") (lit "TWO") ++ lit "</body>".
Proof.
  destruct (replaceSection_first_match_only
              Samples.page_two_sections (lit "us") (lit "NEW") 6)
    as [(b & o & m & c & a & F & _) U];
    [reflexivity | apply exec_match_at; vm_compute; reflexivity|].
  rewrite (U b o m c a F). clear U.
  destruct F as (E & Hl & Hmin & Hsh).
  destruct (section_first_match Samples.page_two_sections (lit "us")
              (lit "NEW") 6) as (b0 & o0 & m0 & c0 & a0 & E0 & Hl0 & _
                                    & Hmin0 & Hsh0 & _ & R0);
    [apply exec_match_at; vm_compute; reflexivity|].
  destruct (section_first_match_unique _ _ b o m c a b0 o0 m0 c0 a0
              E E0 Hl Hl0 Hmin Hmin0 Hsh Hsh0) as (-> & -> & _ & -> & ->).
  rewrite <- R0. vm_compute. reflexivity.
Defined.

(** On the page with two [us] sections the second one is left alone. *)
Example replaceSection_two_sections :
  replaceSection Samples.page_two_sections (lit "us") (lit "NEW")
  = lit "<body>"
    ++ Samples.section (lit "us") (nl :: lit "NEW" ++ nl :: spaces 12)
    ++ Samples.section (lit "us") (lit "TWO") ++ lit "</body>".
Proof. vm_compute. reflexivity. Qed.

(** C1. Cards rendered by [buildCards] end in three closing [div] tags, the
    very text the closing part of the pattern looks for, and the old content
    is matched lazily: on a page that already holds such cards the match
    stops inside the first card. Replacing a section twice with the same
    cards therefore does not give the page that replacing it once gives. *)
Theorem replaceSection_twice_differs :
  replaceSection
    (replaceSection Samples.page (lit "us") Samples.cards1)
    (lit "us") Samples.cards1
  <> replaceSection Samples.page (lit "us") Samples.cards1.
Proof.
  intros H. apply (f_equal (@length _)) in H.
  vm_compute in H. discriminate H.
Qed.

(** What the second run produces: the cards, then the tail of the card of
    the first run from its three closing tags on, which stays behind. *)
Example replaceSection_second_run :
  exists head,
    Samples.cards1 = head ++ lit "</div>" ++ nl :: spaces 20 ++ lit "</div>"
                     ++ nl :: spaces 16 ++ lit "</div>"
    /\ replaceSection
         (replaceSection Samples.page (lit "us") Samples.cards1)
         (lit "us") Samples.cards1
       = lit "<body>"
         ++ Samples.section (lit "us")
              (nl :: Samples.cards1 ++ nl :: spaces 12
               ++ lit "</div>" ++ nl :: spaces 20 ++ lit "</div>"
               ++ nl :: spaces 16 ++ lit "</div>" ++ nl :: spaces 12)
         ++ Samples.footer ++ lit "</body>".
Proof.
  exists (firstn (length Samples.cards1 - 56) Samples.cards1).
  split; vm_compute; reflexivity.
Qed.

End SectionFacts.

(* ------------------------------------------------------------------ *)
(** ** The timestamp *)

Module TimestampFacts.
Import Updater RegexFacts.

Lemma digits_no_dollar u : ~ In dollar (digits u).
Proof.
  induction u; simpl; [tauto|..]; intros [H|H];
    solve [discriminate H | auto].
Qed.

Lemma month_name_no_dollar m : ~ In dollar (month_name m).
Proof.
  assert (H : forallb (fun c => negb (N.eqb c dollar)) (month_name m) = true)
    by (destruct m; reflexivity).
  rewrite forallb_forall in H. intros Hin.
  apply H in Hin. now rewrite N.eqb_refl in Hin.
Qed.

Lemma date_no_dollar d : ~ In dollar (label ++ toLocaleDateString_en_US d).
Proof.
  unfold toLocaleDateString_en_US, decimal. rewrite !in_app_iff.
  intros [H|[H|[H|[H|[H|H]]]]].
  - revert H. vm_compute. intuition discriminate.
  - now apply month_name_no_dollar in H.
  - revert H. vm_compute. intuition discriminate.
  - now apply digits_no_dollar in H.
  - revert H. vm_compute. intuition discriminate.
  - now apply digits_no_dollar in H.
Qed.

(** A literal, then a greedy [+] on a class, before a continuation that
    cannot fail: the run is not empty and goes on as far as the class does. *)
Lemma match_lit_plus_greedy {A} l cl (k : jsstring -> option A) :
  (forall s, k s <> None) ->
  forall s r, match_atoms [ALit l; APlus true cl] s k = Some r ->
  exists run rest,
    s = l ++ run ++ rest /\ run <> []
    /\ forallb (in_class cl) run = true /\ k rest = Some r
    /\ match rest with
       | [] => True
       | c :: _ => in_class cl c = false
       end.
Proof.
  intros Hk s r. cbn [match_atoms].
  destruct (strip_prefix l s) as [s'|] eqn:Hp; [|discriminate].
  apply strip_prefix_inv in Hp as ->.
  destruct s' as [|c s']; [discriminate|].
  destruct (in_class cl c) eqn:Hc; [|discriminate].
  unfold star. intros H.
  apply (star_greedy_max cl (fun s' => k s') Hk) in H
    as (w & rest & -> & Hw & Hr & Hmax).
  exists (c :: w), rest. simpl. rewrite Hc, Hw.
  repeat split; [discriminate | assumption | assumption].
Qed.

Lemma match_last_updated s caps tl :
  match_segs last_updated_regex s = Some (caps, tl) ->
  exists text,
    caps = [label ++ text] /\ s = (label ++ text) ++ tl /\ text <> []
    /\ forallb (in_class (CNot lt)) text = true
    /\ match tl with
       | [] => True
       | c :: _ => c = lt
       end.
Proof.
  unfold last_updated_regex. cbn [match_segs]. intros H.
  apply match_lit_plus_greedy in H
    as (text & rest & E & Hne & Hall & Hk & Hmax); [|discriminate].
  inversion Hk; subst tl caps; clear Hk.
  exists text. rewrite app_assoc in E. subst s. rewrite firstn_consumed.
  repeat split; try assumption.
  destruct rest as [|c rest]; [exact I|].
  simpl in Hmax. apply negb_false_iff in Hmax. now apply N.eqb_eq in Hmax.
Qed.

Lemma label_then_text_matches (b text a : jsstring) :
  text <> [] -> forallb (in_class (CNot lt)) text = true ->
  match_at last_updated_regex (b ++ (label ++ text) ++ a) (length b).
Proof.
  intros Hne Hall. exists b, [label ++ text], a.
  rewrite concat_cons, app_nil_r. repeat split.
  constructor; [|constructor].
  constructor; [constructor|].
  rewrite <- (app_nil_r text). constructor; [|constructor].
  now constructor.
Qed.

(** C7. On a document that contains [Last Updated: January 1, 2020], the
    label together with the text after it up to the next tag (or the end of
    the document) is replaced, at its first occurrence, by the label and
    today's date written as month name, day, comma, year; the text before
    and the text after are kept. Without the label the document comes back
    unchanged. *)
Theorem updateLastModified_replaces_first (rt : runtime) (html : jsstring) :
  (substring_of (label ++ lit "January 1, 2020") html ->
   exists before text after,
     html = before ++ (label ++ text) ++ after
     /\ text <> [] /\ ~ In lt text
     /\ (after = [] \/ exists after', after = lt :: after')
     /\ (forall before' c after',
           html = before' ++ (label ++ [c]) ++ after' -> c <> lt ->
           length before <= length before')
     /\ updateLastModified rt html
        = before
          ++ (label ++ month_name (mon (now rt)) ++ lit " "
                    ++ decimal (day (now rt)) ++ lit ", "
                    ++ decimal (year (now rt)))
          ++ after)
  /\ (~ substring_of label html -> updateLastModified rt html = html).
Proof.
  unfold updateLastModified, replace_str. split.
  - intros (pre & post & ->).
    assert (M : match_at last_updated_regex
                  (pre ++ (label ++ lit "January 1, 2020") ++ post)
                  (length pre))
      by (apply label_then_text_matches; [discriminate | reflexivity]).
    destruct (replace_first_match _
                (fun b caps a => get_substitution (concat caps) b a
                   (label ++ toLocaleDateString_en_US (now rt))) _ _ M)
      as (b & caps & a & E & _ & _ & Hmin & Hms & R).
    apply match_last_updated in Hms as (text & -> & _ & Hne & Hall & Hmax).
    rewrite concat_cons, app_nil_r in E.
    exists b, text, a. repeat split.
    + exact E.
    + exact Hne.
    + intros Hin. rewrite forallb_forall in Hall. apply Hall in Hin.
      discriminate Hin.
    + destruct a as [|c a]; [now left | right]. exists a. now subst c.
    + intros b' c a' E' Hc.
      destruct (Nat.le_gt_cases (length b) (length b')) as [|Hlt];
        [assumption|].
      exfalso. apply (Hmin _ Hlt). rewrite E'.
      apply label_then_text_matches; [discriminate|].
      simpl. apply N.eqb_neq in Hc. now rewrite Hc.
    + rewrite R, get_substitution_plain by apply date_no_dollar.
      reflexivity.
  - intros Habs. apply replace_no_match.
    intros n (b & ws & a & -> & _ & Hl). apply Habs.
    inversion Hl as [|? ? w ws' Hw Hnil]; subst. inversion Hnil; subst.
    inversion Hw as [|? ? w1 w2 Ha _]; subst. inversion Ha; subst.
    exists b, (w2 ++ a). rewrite concat_cons, app_nil_r.
    now rewrite <- app_assoc.
Qed.

Lemma updateLastModified_replaces_first_witness :
  (exists before text after,
     Samples.page = before ++ (label ++ text) ++ after
     /\ text <> [] /\ ~ In lt text
     /\ (after = [] \/ exists after', after = lt :: after')
     /\ (forall before' c after',
           Samples.page = before' ++ (label ++ [c]) ++ after' -> c <> lt ->
           length before <= length before')
     /\ updateLastModified Samples.runtime1 Samples.page
        = before
          ++ (label ++ month_name November ++ lit " "
                    ++ decimal 2 ++ lit ", " ++ decimal 2026)
          ++ after)
  /\ updateLastModified Samples.runtime1 (lit "<body></body>")
     = lit "<body></body>".
Proof.
  split.
  - apply (updateLastModified_replaces_first Samples.runtime1 Samples.page).
    exists (firstn 105 Samples.page), (skipn 134 Samples.page).
    vm_compute. reflexivity.
  - apply (updateLastModified_replaces_first Samples.runtime1).
    intros (pre & post & E). apply (f_equal (@length _)) in E.
    rewrite !length_app in E. simpl in E. lia.
Defined.

(** The page of the examples after the update. *)
Example updateLastModified_page :
  updateLastModified Samples.runtime1 Samples.page
  = lit "<body>" ++ Samples.section (lit "us") (lit "OLD")
    ++ lit "<p>Last Updated: November 2, 2026</p></body>".
Proof. vm_compute. reflexivity. Qed.

End TimestampFacts.

(* ------------------------------------------------------------------ *)
(** ** Card rendering *)

Module CardFacts.
Import Updater.


Lemma escape_quotes_no_quote (s : jsstring) : ~ In dq (escape_quotes s).
Proof.
  unfold escape_quotes. induction s as [|c s IH]; [simpl; tauto|].
  cbn [flat_map]. rewrite in_app_iff.
  destruct (N.eqb_spec c dq) as [->|Hc]; intros [H|H]; try tauto.
  - revert H. vm_compute. intuition discriminate.
  - destruct H as [H|[]]. contradiction.
Qed.

Lemma firstn_no_quote n (s : jsstring) : ~ In dq s -> ~ In dq (firstn n s).
Proof.
  intros Hs Hin. apply Hs.
  rewrite <- (firstn_skipn n s). apply in_or_app. now left.
Qed.

(** Every card of the input is a piece of what [buildCards] returns. *)
Lemma card_in_buildCards rt emoji articles a :
  In a articles -> substring_of (card rt emoji a) (buildCards rt articles emoji).
Proof.
  unfold buildCards. destruct articles as [|a0 l]; [easy|].
  revert a0. induction l as [|a1 l IH]; intros a0 Hin.
  - destruct Hin as [->|[]]. exists [], []. simpl. now rewrite app_nil_r.
  - destruct Hin as [->|Hin].
    + exists [], (nl :: join_lines (map (card rt emoji) (a1 :: l))).
      reflexivity.
    + destruct (IH a1 Hin) as (pre & post & E).
      exists (card rt emoji a0 ++ nl :: pre), post.
      change (map (card rt emoji) (a0 :: a1 :: l))
        with (card rt emoji a0 :: map (card rt emoji) (a1 :: l)).
      change (join_lines (card rt emoji a0 :: map (card rt emoji) (a1 :: l)))
        with (card rt emoji a0 ++ nl :: join_lines (map (card rt emoji) (a1 :: l))).
      rewrite E, <- app_assoc. reflexivity.
Qed.

Lemma substring_of_trans (a b c : jsstring) :
  substring_of a b -> substring_of b c -> substring_of a c.
Proof.
  intros (p1 & q1 & ->) (p2 & q2 & ->).
  exists (p2 ++ p1), (q1 ++ q2). now rewrite <- !app_assoc.
Qed.

Lemma substring_of_refl (a : jsstring) : substring_of a a.
Proof. exists [], []. simpl. now rewrite app_nil_r. Qed.

Lemma substring_of_skip (p a b : jsstring) :
  substring_of a b -> substring_of a (p ++ b).
Proof.
  intros (p1 & q1 & ->). exists (p ++ p1), q1. now rewrite <- app_assoc.
Qed.

Lemma substring_of_cons c (a b : jsstring) :
  substring_of a b -> substring_of a (c :: b).
Proof. apply (substring_of_skip [c]). Qed.

Lemma substring_of_keep (q a b : jsstring) :
  substring_of a b -> substring_of a (b ++ q).
Proof.
  intros (p1 & q1 & ->). exists p1, (q1 ++ q). now rewrite <- !app_assoc.
Qed.

Lemma title_element_in_card rt emoji a :
  substring_of (lit "<h3 class=" ++ quoted "card-title" ++ lit ">"
                ++ card_title a ++ lit "</h3>")
               (card rt emoji a).
Proof.
  unfold card. do 4 apply substring_of_skip. apply substring_of_keep.
  unfold line. apply substring_of_cons, substring_of_skip.
  apply substring_of_refl.
Qed.

Lemma source_in_card rt emoji a :
  substring_of ([32; 183; 32]%N ++ card_source a ++ lit "</div>")
               (card rt emoji a).
Proof.
  unfold card. do 3 apply substring_of_skip. apply substring_of_keep.
  unfold line. apply substring_of_cons.
  do 5 apply substring_of_skip. apply substring_of_refl.
Qed.

Lemma link_in_card rt emoji a :
  substring_of (lit "<a href=" ++ dq :: card_url a ++ dq
                :: lit " class=" ++ quoted "read-more" ++ lit " target="
                ++ quoted "_blank" ++ lit ">Read More</a>")
               (card rt emoji a).
Proof.
  unfold card. do 8 apply substring_of_skip. apply substring_of_keep.
  unfold line. apply substring_of_cons, substring_of_skip.
  apply substring_of_refl.
Qed.

(** Every card ends in text that the closing group of the section pattern
    matches: the three closing tags of the card itself. *)
Lemma card_ends_like_section rt emoji a :
  exists head tail,
    card rt emoji a = head ++ tail /\ atoms_lang section_close tail.
Proof.
  unfold card. rewrite !app_assoc.
  rewrite <- (app_assoc _ (line 20 (lit "</div>"))),
          <- (app_assoc _ (line 24 (lit "</div>"))).
  match goal with
  | |- exists head tail, ?front ++ _ = _ /\ _ =>
      exists (front ++ nl :: spaces 24),
             (close_div ++ (nl :: spaces 20) ++ close_div
              ++ (nl :: spaces 16) ++ close_div ++ []);
      split; [rewrite <- (app_assoc front); f_equal; reflexivity|]
  end.
  unfold section_close. repeat (constructor; try reflexivity).
Qed.




(** C10. Only the title and the description go through the escaping of
    double quotes. The url of an article stands as it is between the quotes
    of the [href] attribute of its card, and the name of its source as it is
    in the meta line, double quotes included; the title and description
    fields hold none. *)
Theorem url_and_source_verbatim rt emoji (articles : list article)
        (a : article) :
  In a articles ->
  (forall u, url a = Some u -> u <> [] ->
     substring_of (lit "<a href=" ++ dq :: u ++ dq
                   :: lit " class=" ++ quoted "read-more" ++ lit " target="
                   ++ quoted "_blank" ++ lit ">Read More</a>")
                  (buildCards rt articles emoji))
  /\ (forall n, source a = Some {| name := Some n |} -> n <> [] ->
        substring_of ([32; 183; 32]%N ++ n ++ lit "</div>")
                     (buildCards rt articles emoji))
  /\ ~ In dq (card_title a) /\ ~ In dq (card_desc a).
Proof.
  intros Hin. repeat split.
  - intros u Hu Hne.
    apply substring_of_trans with (b := card rt emoji a);
      [|now apply card_in_buildCards].
    pose proof (link_in_card rt emoji a) as H. unfold card_url in H.
    rewrite Hu in H. destruct u; [easy | exact H].
  - intros n Hn Hne.
    apply substring_of_trans with (b := card rt emoji a);
      [|now apply card_in_buildCards].
    pose proof (source_in_card rt emoji a) as H. unfold card_source in H.
    rewrite Hn in H. simpl in H. destruct n; [easy | exact H].
  - apply firstn_no_quote, escape_quotes_no_quote.
  - apply firstn_no_quote, escape_quotes_no_quote.
Qed.

Lemma url_and_source_verbatim_witness :
  substring_of (lit "<a href=" ++ dq :: (lit "x" ++ dq :: lit " onclick="
                  ++ dq :: lit "y") ++ dq
                :: lit " class=" ++ quoted "read-more" ++ lit " target="
                ++ quoted "_blank" ++ lit ">Read More</a>")
               (buildCards Samples.runtime1 [Samples.article_quoted_url] robot)
  /\ substring_of ([32; 183; 32]%N ++ (lit "A" ++ dq :: lit "B")
                   ++ lit "</div>")
                  (buildCards Samples.runtime1 [Samples.article_quoted_url]
                              robot).
Proof.
  destruct (url_and_source_verbatim Samples.runtime1 robot
              [Samples.article_quoted_url] Samples.article_quoted_url)
    as (Hu & Hs & _); [now left|].
  split; [apply Hu | apply Hs]; solve [reflexivity | discriminate].
Defined.

End CardFacts.

(* ------------------------------------------------------------------ *)
(** ** Fetching the news, and the run as a whole *)

Module FetchFacts.
Import Updater.

Lemma status_is_ok_iff status :
  status_is_ok status = true <-> status = Some (lit "ok").
Proof.
  unfold status_is_ok, jsstring_eqb. destruct status as [s|]; [|easy].
  destruct (list_eq_dec N.eq_dec s (lit "ok")) as [->|Hne]; [easy|].
  split; [discriminate | intros H; now inversion H].
Qed.

Lemma fetchNews_with_key rt query fromDate :
  NEWS_API_KEY rt <> [] ->
  fetchNews rt query fromDate =
  match https_get rt (news_request rt query fromDate) with
  | HttpError => Rejected NetworkError
  | HttpSilent => Pending
  | HttpEnd data =>
      match JSON_parse rt data with
      | None => Rejected SyntaxError
      | Some PNull => Rejected TypeError
      | Some (PValue status _ articles) =>
          if status_is_ok status
          then Resolved (match articles with Some l => l | None => [] end)
          else Resolved []
      end
  end.
Proof.
  unfold fetchNews. now destruct (NEWS_API_KEY rt).
Qed.

(** A rejected fetch, whichever of the two, ends the run in the catch block
    before index.html is read or written. *)
Lemma main_rejected rt e :
  fetchNews rt QUERIES_us (two_weeks_ago_iso rt) = Rejected e
  \/ fetchNews rt QUERIES_china (two_weeks_ago_iso rt) = Rejected e ->
  exists e', main rt = {| disk := Untouched; ended := Caught e' |}.
Proof.
  unfold main. intros [H|H]; rewrite H.
  - now exists e.
  - destruct (fetchNews rt QUERIES_us (two_weeks_ago_iso rt)) as [l|e1|];
      simpl; eauto.
Qed.

(** C4. With a credential configured, a response body that does not parse
    makes that call of [fetchNews] reject. When it is one of the two fetches
    of a run, the rejection goes through the joined pair, the run ends in
    the catch block of [main], and index.html is not written. *)
Theorem unparseable_body_aborts_run rt query fromDate data :
  NEWS_API_KEY rt <> [] ->
  https_get rt (news_request rt query fromDate) = HttpEnd data ->
  JSON_parse rt data = None ->
  fetchNews rt query fromDate = Rejected SyntaxError
  /\ (query = QUERIES_us \/ query = QUERIES_china ->
      fromDate = two_weeks_ago_iso rt ->
      exists e, main rt = {| disk := Untouched; ended := Caught e |}).
Proof.
  intros Hkey Hget Hparse.
  assert (R : fetchNews rt query fromDate = Rejected SyntaxError)
    by now rewrite fetchNews_with_key, Hget, Hparse.
  split; [exact R|].
  intros Hq ->. apply (main_rejected rt SyntaxError).
  destruct Hq as [<-|<-]; [now left | now right].
Qed.

Lemma unparseable_body_aborts_run_witness :
  fetchNews Samples.runtime_bad_body QUERIES_us (lit "2026-10-19")
  = Rejected SyntaxError
  /\ exists e, main Samples.runtime_bad_body
               = {| disk := Untouched; ended := Caught e |}.
Proof.
  destruct (unparseable_body_aborts_run Samples.runtime_bad_body QUERIES_us
              (lit "2026-10-19") Samples.bad_body) as [R M];
    [discriminate | reflexivity | reflexivity |].
  split; [exact R | apply M; [now left | reflexivity]].
Defined.

(** C5, as stated, fails: with a credential configured, a body that is not
    JSON, or that is the JSON [null], makes [fetchNews] reject; it does not
    resolve with an empty sequence. *)
Lemma fetchNews_malformed_rejects :
  NEWS_API_KEY Samples.runtime_bad_body <> []
  /\ JSON_parse Samples.runtime_bad_body Samples.bad_body = None
  /\ fetchNews Samples.runtime_bad_body QUERIES_us (lit "2026-10-19")
     = Rejected SyntaxError
  /\ fetchNews Samples.runtime_bad_body QUERIES_us (lit "2026-10-19")
     <> Resolved []
  /\ fetchNews Samples.runtime_null QUERIES_us (lit "2026-10-19")
     = Rejected TypeError.
Proof.
  repeat split; try reflexivity; discriminate.
Qed.

(** C5, amended. [fetchNews] resolves with the empty sequence when no
    credential is configured, and, with one, when the body parses to a value
    whose status is not [ok] or that has no articles. A body that does not
    parse, or parses to [null], rejects the call. *)
Theorem fetchNews_empty_cases rt query fromDate :
  (NEWS_API_KEY rt = [] -> fetchNews rt query fromDate = Resolved [])
  /\ (forall data status message articles,
        NEWS_API_KEY rt <> [] ->
        https_get rt (news_request rt query fromDate) = HttpEnd data ->
        JSON_parse rt data = Some (PValue status message articles) ->
        status <> Some (lit "ok") \/ articles = None ->
        fetchNews rt query fromDate = Resolved [])
  /\ (forall data,
        NEWS_API_KEY rt <> [] ->
        https_get rt (news_request rt query fromDate) = HttpEnd data ->
        JSON_parse rt data = None \/ JSON_parse rt data = Some PNull ->
        exists e, fetchNews rt query fromDate = Rejected e).
Proof.
  repeat split.
  - intros Hkey. unfold fetchNews. now rewrite Hkey.
  - intros data status message articles Hkey Hget Hparse Hcase.
    rewrite fetchNews_with_key, Hget, Hparse by assumption.
    destruct (status_is_ok status) eqn:Hok; [|reflexivity].
    apply status_is_ok_iff in Hok.
    destruct Hcase as [Hs | ->]; [contradiction | reflexivity].
  - intros data Hkey Hget Hparse.
    rewrite fetchNews_with_key, Hget by assumption.
    destruct Hparse as [-> | ->]; eauto.
Qed.

Lemma fetchNews_empty_cases_witness :
  fetchNews Samples.runtime_no_key QUERIES_us (lit "2026-10-19") = Resolved []
  /\ fetchNews Samples.runtime_error_status QUERIES_us (lit "2026-10-19")
     = Resolved []
  /\ exists e, fetchNews Samples.runtime_bad_body QUERIES_us (lit "2026-10-19")
               = Rejected e.
Proof.
  split; [|split].
  - apply (fetchNews_empty_cases Samples.runtime_no_key). reflexivity.
  - destruct (fetchNews_empty_cases Samples.runtime_error_status QUERIES_us
                (lit "2026-10-19")) as (_ & H & _).
    apply (H (lit "{error}") (Some (lit "error"))
             (Some (lit "rateLimited")) None);
      [discriminate | reflexivity | reflexivity | left; discriminate].
  - destruct (fetchNews_empty_cases Samples.runtime_bad_body QUERIES_us
                (lit "2026-10-19")) as (_ & _ & H).
    apply (H Samples.bad_body);
      [discriminate | reflexivity | left; reflexivity].
Defined.

(** C6, as stated, fails: the page size is a parameter of the request, and
    the articles of the response are passed on as they are. A provider that
    answers with six articles makes [fetchNews] resolve with six. *)
Lemma fetchNews_six_articles :
  exists l,
    fetchNews Samples.runtime_six QUERIES_us (lit "2026-10-19") = Resolved l
    /\ length l = 6.
Proof.
  exists (repeat Samples.article1 6). split; reflexivity.
Qed.

(** C6, amended. [fetchNews] asks the provider for a page of 5 and resolves
    with the articles of the response as they are, however many they are:
    for a response with status [ok] it resolves with exactly the list of
    the response. So the result has at most 5 articles whenever the
    provider keeps to the page size it was asked for. *)
Theorem fetchNews_at_most_pageSize rt query fromDate :
  pageSize (news_request rt query fromDate) = 5
  /\ (forall data message (articles : list article),
        NEWS_API_KEY rt <> [] ->
        https_get rt (news_request rt query fromDate) = HttpEnd data ->
        JSON_parse rt data
        = Some (PValue (Some (lit "ok")) message (Some articles)) ->
        fetchNews rt query fromDate = Resolved articles)
  /\ (forall l : list article,
        (forall data status message articles,
           https_get rt (news_request rt query fromDate) = HttpEnd data ->
           JSON_parse rt data = Some (PValue status message (Some articles)) ->
           length articles <= pageSize (news_request rt query fromDate)) ->
        fetchNews rt query fromDate = Resolved l ->
        length l <= 5).
Proof.
  split; [reflexivity|]. split.
  - intros data message articles Hkey Hget Hparse.
    now rewrite fetchNews_with_key, Hget, Hparse.
  - intros l Hprov Hres. unfold fetchNews in Hres.
    destruct (NEWS_API_KEY rt) as [|c key]; [inversion Hres; simpl; lia|].
    destruct (https_get rt (news_request rt query fromDate))
      as [|data|] eqn:Hget; try discriminate.
    destruct (JSON_parse rt data) as [[|status message articles]|] eqn:Hparse;
      try discriminate.
    destruct (status_is_ok status); [|inversion Hres; simpl; lia].
    destruct articles as [arts|]; inversion Hres; subst; [|simpl; lia].
    exact (Hprov _ _ _ _ eq_refl Hparse).
Qed.

Lemma fetchNews_at_most_pageSize_witness :
  fetchNews Samples.runtime_six QUERIES_us (lit "2026-10-19")
  = Resolved (repeat Samples.article1 6)
  /\ length [Samples.article1] <= 5.
Proof.
  split.
  - destruct (fetchNews_at_most_pageSize Samples.runtime_six QUERIES_us
                (lit "2026-10-19")) as (_ & H & _).
    apply (H Samples.ok_body None (repeat Samples.article1 6));
      [discriminate | reflexivity | reflexivity].
  - destruct (fetchNews_at_most_pageSize Samples.runtime1 QUERIES_us
                (lit "2026-10-19")) as (_ & _ & H).
    apply (H [Samples.article1]); [|reflexivity].
    intros data status message articles Hget Hparse.
    inversion Hget; subst data. vm_compute in Hparse.
    inversion Hparse; subst. simpl. lia.
Defined.

(** A run against the sample provider: both sections are asked for, the one
    that exists is replaced, the date is updated and the page is written. *)
Example main_sample_run :
  exists html,
    main Samples.runtime1 = {| disk := Written html; ended := Completed |}
    /\ html = updateLastModified Samples.runtime1
                (replaceSection Samples.page (lit "us") Samples.cards1).
Proof. eexists. split; vm_compute; reflexivity. Qed.

End FetchFacts.

(* ------------------------------------------------------------------ *)
(** ** The static server *)

Module ServerFacts.
Import NodePath Server.

Lemma jsstring_eqb_eq (a b : jsstring) : jsstring_eqb a b = true <-> a = b.
Proof.
  unfold jsstring_eqb. destruct (list_eq_dec N.eq_dec a b); split; easy.
Qed.

Lemma jsstring_eqb_neq (a b : jsstring) : a <> b -> jsstring_eqb a b = false.
Proof.
  unfold jsstring_eqb. now destruct (list_eq_dec N.eq_dec a b).
Qed.

Lemma split_slash_nonempty s : split_slash s <> [].
Proof.
  destruct s as [|c s]; simpl; [discriminate|].
  destruct (is_slash c); [discriminate|].
  destruct (split_slash s); discriminate.
Qed.

Lemma split_slash_file w : no_slash w = true -> split_slash w = [w].
Proof.
  unfold no_slash. induction w as [|c w IH]; simpl; [reflexivity|].
  intros H. apply andb_prop in H as [Hc Hw].
  apply negb_true_iff in Hc. now rewrite Hc, (IH Hw).
Qed.

Lemma split_slash_app p w :
  no_slash w = true -> split_slash (p ++ slash :: w) = split_slash p ++ [w].
Proof.
  intros Hw. induction p as [|c p IH]; simpl.
  - now rewrite (split_slash_file _ Hw).
  - rewrite IH. destruct (is_slash c); [reflexivity|].
    pose proof (split_slash_nonempty p).
    now destruct (split_slash p).
Qed.

Lemma push_segment_file allow kept w :
  w <> [] -> w <> dot_seg -> w <> dotdot_seg ->
  push_segment allow kept w = w :: kept.
Proof.
  intros H0 H1 H2. unfold push_segment.
  now rewrite !jsstring_eqb_neq.
Qed.

Lemma join_slash_snoc l w :
  join_slash (l ++ [w])
  = match l with
    | [] => w
    | _ => join_slash l ++ slash :: w
    end.
Proof.
  induction l as [|a l IH]; [reflexivity|].
  change ((a :: l) ++ [w]) with (a :: l ++ [w]).
  destruct l as [|b l]; [reflexivity|].
  change (join_slash (a :: (b :: l) ++ [w]))
    with (a ++ slash :: join_slash ((b :: l) ++ [w])).
  rewrite IH.
  change (join_slash (a :: b :: l)) with (a ++ slash :: join_slash (b :: l)).
  now rewrite <- app_assoc.
Qed.

Lemma last_not_slash w :
  no_slash w = true -> w <> [] -> ends_with_slash w = false
  /\ exists c r, rev w = c :: r /\ is_slash c = false.
Proof.
  unfold no_slash. intros Hw Hne. unfold ends_with_slash.
  destruct (rev w) as [|c r] eqn:E.
  - apply (f_equal (@rev _)) in E. rewrite rev_involutive in E. now subst.
  - assert (Hin : In c w) by (apply in_rev; rewrite E; now left).
    rewrite forallb_forall in Hw. apply Hw, negb_true_iff in Hin.
    split; [assumption | now exists c, r].
Qed.

(** Joining a directory with [/name] gives a path whose last segment is
    [name]. *)
Lemma join_file dir w :
  no_slash w = true -> w <> [] -> w <> dot_seg -> w <> dotdot_seg ->
  exists x, join dir (slash :: w) = x ++ w
            /\ (x = [] \/ exists x', x = x' ++ [slash]).
Proof.
  intros Hw H0 H1 H2.
  assert (N : forall p, p ++ slash :: w <> [] ->
                exists x, normalize (p ++ slash :: w) = x ++ w
                          /\ (x = [] \/ exists x', x = x' ++ [slash])).
  { intros p Hp. unfold normalize.
    destruct (p ++ slash :: w) as [|c path] eqn:E; [easy|].
    rewrite <- E. clear Hp.
    assert (T : ends_with_slash (p ++ slash :: w) = false).
    { unfold ends_with_slash. rewrite rev_app_distr. simpl rev.
      destruct (last_not_slash w Hw H0) as (_ & d & r & Er & Hd).
      rewrite Er. simpl. exact Hd. }
    rewrite T. unfold normalizeString.
    rewrite split_slash_app, fold_left_app by assumption. simpl fold_left.
    rewrite push_segment_file by assumption.
    simpl rev. rewrite join_slash_snoc.
    set (kept := rev (fold_left (push_segment (negb (is_slash c)))
                                (split_slash p) [])).
    destruct kept as [|k kept].
    - destruct w as [|d w]; [easy|].
      exists (if is_slash c then [slash] else []).
      rewrite app_nil_r. split; [reflexivity|].
      destruct (is_slash c); [right; now exists [] | now left].
    - destruct (join_slash (k :: kept) ++ slash :: w) as [|d j] eqn:Ej.
      { now destruct (join_slash (k :: kept)). }
      rewrite <- Ej, app_nil_r.
      exists ((if is_slash c then [slash] else [])
              ++ join_slash (k :: kept) ++ [slash]).
      split; [now rewrite <- !app_assoc|].
      right. exists ((if is_slash c then [slash] else [])
                     ++ join_slash (k :: kept)).
      now rewrite <- app_assoc. }
  unfold join. destruct dir as [|c dir].
  - apply (N []). discriminate.
  - replace ((c :: dir) ++ slash :: slash :: w)
      with (((c :: dir) ++ [slash]) ++ slash :: w)
      by now rewrite <- app_assoc.
    apply N. discriminate.
Qed.

Lemma take_while_app p (l r : jsstring) :
  forallb p l = true ->
  match r with [] => True | c :: _ => p c = false end ->
  take_while p (l ++ r) = l.
Proof.
  intros Hl Hr. induction l as [|c l IH]; simpl in *.
  - destruct r as [|c r]; [reflexivity | simpl; now rewrite Hr].
  - apply andb_prop in Hl as [Hc Hl]. now rewrite Hc, (IH Hl).
Qed.

Lemma rev_basename_file x w :
  no_slash w = true -> w <> [] ->
  x = [] \/ (exists x', x = x' ++ [slash]) ->
  rev_basename (x ++ w) = rev w.
Proof.
  intros Hw H0 Hx. unfold rev_basename. rewrite rev_app_distr.
  destruct (last_not_slash w Hw H0) as (_ & d & r & Er & Hd).
  assert (D : drop_while is_slash (rev w ++ rev x) = rev w ++ rev x)
    by (rewrite Er; simpl; now rewrite Hd).
  rewrite D. apply take_while_app.
  - unfold no_slash in Hw. rewrite forallb_forall in *. intros c Hc. apply Hw. now apply in_rev.
  - destruct Hx as [-> | (x' & ->)]; [exact I|].
    rewrite rev_app_distr. reflexivity.
Qed.

(** The extension of a joined path is the extension of the file name. *)
Lemma extname_join_file dir w :
  no_slash w = true -> w <> [] -> w <> dot_seg -> w <> dotdot_seg ->
  extname (join dir (slash :: w)) = extname w.
Proof.
  intros Hw H0 H1 H2.
  destruct (join_file dir w Hw H0 H1 H2) as (x & -> & Hx).
  unfold extname.
  rewrite (rev_basename_file x w Hw H0 Hx).
  pose proof (rev_basename_file [] w Hw H0 (or_introl eq_refl)) as E.
  simpl in E. now rewrite E.
Qed.

Lemma extname_index dir : extname (join dir (lit "/index.html")) = lit ".html".
Proof.
  change (lit "/index.html") with (slash :: lit "index.html").
  rewrite extname_join_file; try discriminate; reflexivity.
Qed.

Lemma extname_styles dir : extname (join dir (lit "/styles.css")) = lit ".css".
Proof.
  change (lit "/styles.css") with (slash :: lit "styles.css").
  rewrite extname_join_file; try discriminate; reflexivity.
Qed.

(** C8. The handler answers [/] as it answers [/index.html], body and
    headers alike, with the html content type; it answers [/styles.css],
    when the file can be read, with the css content type and the file's
    text; and whenever the read fails, whatever the error, with status 404,
    the html content type and the fixed body. *)
Theorem handler_scenarios (h : host) :
  handler h (lit "/") = handler h (lit "/index.html")
  /\ contentType (handler h (lit "/")) = lit "text/html; charset=utf-8"
  /\ (forall data,
        readFile h (NodePath.join (dirname h) (lit "/styles.css")) = ReadOk data ->
        handler h (lit "/styles.css")
        = {| statusCode := 200;
             contentType := lit "text/css; charset=utf-8";
             body := data |})
  /\ (forall url err,
        readFile h (resolve_path h url) = ReadErr err ->
        handler h url
        = {| statusCode := 404;
             contentType := lit "text/html; charset=utf-8";
             body := not_found_body |}).
Proof.
  split; [reflexivity|]. split; [|split].
  - unfold handler, resolve_path.
    change (jsstring_eqb (lit "/") (lit "/")) with true. cbv iota.
    destruct (readFile h (join (dirname h) (lit "/index.html")));
      [|reflexivity].
    rewrite extname_index. reflexivity.
  - intros data Hread. unfold handler, resolve_path.
    change (jsstring_eqb (lit "/styles.css") (lit "/")) with false. cbv iota.
    rewrite Hread, extname_styles. reflexivity.
  - intros url err Hread. unfold handler. now rewrite Hread.
Qed.

Lemma handler_scenarios_witness :
  handler Samples.site (lit "/styles.css")
  = {| statusCode := 200;
       contentType := lit "text/css; charset=utf-8";
       body := lit "body { margin: 0 }" |}
  /\ handler Samples.site (lit "/missing.png")
     = {| statusCode := 404;
          contentType := lit "text/html; charset=utf-8";
          body := not_found_body |}
  /\ handler Samples.site (lit "/private")
     = {| statusCode := 404;
          contentType := lit "text/html; charset=utf-8";
          body := not_found_body |}.
Proof.
  destruct (handler_scenarios Samples.site) as (_ & _ & Hcss & H404).
  split; [|split].
  - apply Hcss. reflexivity.
  - apply (H404 (lit "/missing.png") ENOENT). reflexivity.
  - apply (H404 (lit "/private") EACCES). reflexivity.
Defined.

(** The index page of the sample site, asked for in both ways. *)
Example handler_root :
  handler Samples.site (lit "/")
  = {| statusCode := 200;
       contentType := lit "text/html; charset=utf-8";
       body := Samples.page |}
  /\ handler Samples.site (lit "/index.html") = handler Samples.site (lit "/").
Proof. split; vm_compute; reflexivity. Qed.

End ServerFacts.

(* ------------------------------------------------------------------ *)
(** ** More on card rendering *)

Module CardProps.
Import Updater CardFacts.

Lemma escape_quotes_plain (s : jsstring) :
  ~ In dq s -> escape_quotes s = s.
Proof.
  unfold escape_quotes. induction s as [|c s IH]; [reflexivity|].
  intros Hn. cbn [flat_map].
  destruct (N.eqb_spec c dq) as [->|_]; [now destruct Hn; left|].
  rewrite IH; [reflexivity|]. intros H. apply Hn. now right.
Qed.

Lemma desc_element_in_card rt emoji a :
  substring_of (lit "<p class=" ++ quoted "card-summary" ++ lit ">"
                ++ card_desc a ++ lit "</p>")
               (card rt emoji a).
Proof.
  unfold card. do 5 apply substring_of_skip. apply substring_of_keep.
  unfold line. apply substring_of_cons, substring_of_skip.
  apply substring_of_refl.
Qed.

Lemma date_in_card rt emoji a :
  substring_of (lit ">" ++ formatDate rt (publishedAt a) ++ [32; 183; 32]%N)
               (card rt emoji a).
Proof.
  unfold card. do 3 apply substring_of_skip. apply substring_of_keep.
  unfold line. apply substring_of_cons.
  do 3 apply substring_of_skip.
  rewrite !app_assoc. do 2 apply substring_of_keep.
  rewrite <- !app_assoc. apply substring_of_refl.
Qed.

Lemma or_else_some (t d : jsstring) : t <> [] -> or_else (Some t) d = t.
Proof. now destruct t. Qed.




(** A title of at most 80 code units and a description of at most 200,
    both without a double quote, are put into the card as they are: markup
    in them, such as [<b>], reaches the page unescaped. *)
Theorem plain_text_verbatim rt emoji (articles : list article) (a : article) :
  In a articles ->
  (forall t, title a = Some t -> t <> [] -> ~ In dq t -> length t <= 80 ->
     substring_of (lit "<h3 class=" ++ quoted "card-title" ++ lit ">"
                   ++ t ++ lit "</h3>")
                  (buildCards rt articles emoji))
  /\ (forall d, description a = Some d -> d <> [] -> ~ In dq d ->
        length d <= 200 ->
        substring_of (lit "<p class=" ++ quoted "card-summary" ++ lit ">"
                      ++ d ++ lit "</p>")
                     (buildCards rt articles emoji)).
Proof.
  intros Hin. split.
  - intros t Ht Hne Hq Hlen.
    apply substring_of_trans with (b := card rt emoji a);
      [|now apply card_in_buildCards].
    pose proof (title_element_in_card rt emoji a) as H.
    unfold card_title, slice0 in H.
    rewrite Ht, (or_else_some _ _ Hne), (escape_quotes_plain _ Hq) in H.
    now rewrite firstn_all2 in H by assumption.
  - intros d Hd Hne Hq Hlen.
    apply substring_of_trans with (b := card rt emoji a);
      [|now apply card_in_buildCards].
    pose proof (desc_element_in_card rt emoji a) as H.
    unfold card_desc, slice0 in H. rewrite Hd in H.
    assert (E : or_opt (Some d) (content a) = Some d) by now destruct d.
    rewrite E, (or_else_some _ _ Hne), (escape_quotes_plain _ Hq) in H.
    now rewrite firstn_all2 in H by assumption.
Qed.

Lemma plain_text_verbatim_witness :
  substring_of (lit "<h3 class=" ++ quoted "card-title" ++ lit ">"
                ++ lit "<b>Fast</b> & cheap" ++ lit "</h3>")
               (buildCards Samples.runtime1
                           [Samples.article1; Samples.article_markup] robot)
  /\ substring_of (lit "<p class=" ++ quoted "card-summary" ++ lit ">"
                   ++ lit "1 < 2" ++ lit "</p>")
                  (buildCards Samples.runtime1
                              [Samples.article1; Samples.article_markup] robot).
Proof.
  destruct (plain_text_verbatim Samples.runtime1 robot
              [Samples.article1; Samples.article_markup]
              Samples.article_markup) as [Ht Hd]; [right; now left|].
  split.
  - apply Ht; [reflexivity | discriminate | | simpl; lia].
    vm_compute. intuition discriminate.
  - apply Hd; [reflexivity | discriminate | | simpl; lia].
    vm_compute. intuition discriminate.
Defined.

(** What a card shows for the fields an article lacks: an empty title, the
    fixed summary text when description and content are both missing, the
    content when only the description is, [News] for the source, [#] for
    the link, and [Invalid Date] when the publication date does not parse. *)
Theorem missing_fields_defaults rt emoji (articles : list article)
        (a : article) :
  In a articles ->
  (title a = None \/ title a = Some [] ->
     substring_of (lit "<h3 class=" ++ quoted "card-title" ++ lit "></h3>")
                  (buildCards rt articles emoji))
  /\ ((description a = None \/ description a = Some []) ->
      (content a = None \/ content a = Some []) ->
      substring_of (lit "<p class=" ++ quoted "card-summary" ++ lit ">"
                    ++ [45236; 50857; 32; 50630; 51020]%N ++ lit "</p>")
                   (buildCards rt articles emoji))
  /\ (forall c, (description a = None \/ description a = Some []) ->
        content a = Some c -> c <> [] ->
        substring_of (lit "<p class=" ++ quoted "card-summary" ++ lit ">"
                      ++ slice0 200 (escape_quotes c) ++ lit "</p>")
                     (buildCards rt articles emoji))
  /\ ((source a = None \/ source a = Some {| name := None |}
       \/ source a = Some {| name := Some [] |}) ->
      substring_of ([32; 183; 32]%N ++ lit "News</div>")
                   (buildCards rt articles emoji))
  /\ (url a = None \/ url a = Some [] ->
      substring_of (lit "<a href=" ++ dq :: lit "#" ++ dq :: lit " class=")
                   (buildCards rt articles emoji))
  /\ (Date_parse rt (publishedAt a) = None ->
      substring_of (lit ">Invalid Date" ++ [32; 183; 32]%N)
                   (buildCards rt articles emoji)).
Proof.
  intros Hin.
  assert (T : forall x, substring_of x (card rt emoji a) ->
                        substring_of x (buildCards rt articles emoji)).
  { intros x Hx. apply substring_of_trans with (b := card rt emoji a);
      [exact Hx | now apply card_in_buildCards]. }
  repeat split.
  - intros Ht. apply T.
    pose proof (title_element_in_card rt emoji a) as H.
    unfold card_title in H.
    now destruct Ht as [E|E]; rewrite E in H.
  - intros Hd Hc. apply T.
    pose proof (desc_element_in_card rt emoji a) as H.
    unfold card_desc in H.
    now destruct Hd as [E|E], Hc as [E'|E']; rewrite E, E' in H.
  - intros c Hd Hc Hne. apply T.
    pose proof (desc_element_in_card rt emoji a) as H.
    unfold card_desc in H. rewrite Hc in H.
    destruct c as [|c0 c]; [easy|].
    now destruct Hd as [E|E]; rewrite E in H.
  - intros Hs. apply T.
    pose proof (source_in_card rt emoji a) as H.
    unfold card_source in H.
    now destruct Hs as [E|[E|E]]; rewrite E in H.
  - intros Hu. apply T.
    pose proof (link_in_card rt emoji a) as H.
    unfold card_url in H.
    assert (E : or_else (url a) (lit "#") = lit "#")
      by (now destruct Hu as [E|E]; rewrite E).
    rewrite E in H.
    eapply substring_of_trans; [|exact H].
    exists [], (quoted "read-more" ++ lit " target=" ++ quoted "_blank"
                ++ lit ">Read More</a>").
    reflexivity.
  - intros Hp. apply T.
    pose proof (date_in_card rt emoji a) as H.
    unfold formatDate in H. now rewrite Hp in H.
Qed.

Lemma missing_fields_defaults_witness :
  substring_of (lit "<h3 class=" ++ quoted "card-title" ++ lit "></h3>")
               (buildCards Samples.runtime1 [Samples.article_blank] robot)
  /\ substring_of (lit "<p class=" ++ quoted "card-summary" ++ lit ">"
                   ++ [45236; 50857; 32; 50630; 51020]%N ++ lit "</p>")
                  (buildCards Samples.runtime1 [Samples.article_blank] robot)
  /\ substring_of ([32; 183; 32]%N ++ lit "News</div>")
                  (buildCards Samples.runtime1 [Samples.article_blank] robot)
  /\ substring_of (lit "<a href=" ++ dq :: lit "#" ++ dq :: lit " class=")
                  (buildCards Samples.runtime1 [Samples.article_blank] robot)
  /\ substring_of (lit ">Invalid Date" ++ [32; 183; 32]%N)
                  (buildCards Samples.runtime1 [Samples.article_blank] robot).
Proof.
  destruct (missing_fields_defaults Samples.runtime1 robot
              [Samples.article_blank] Samples.article_blank)
    as (Ht & Hd & _ & Hs & Hu & Hp); [now left|].
  split; [|split; [|split; [|split]]].
  - apply Ht. now left.
  - apply Hd; now left.
  - apply Hs. now left.
  - apply Hu. now left.
  - apply Hp. reflexivity.
Defined.

(** The cards follow the order of the articles, one line break between two
    cards: rendering two non-empty lists one after the other is rendering
    the first, a line break, and the second. *)
Theorem buildCards_app rt emoji (l1 l2 : list article) :
  l1 <> [] -> l2 <> [] ->
  buildCards rt (l1 ++ l2) emoji
  = buildCards rt l1 emoji ++ nl :: buildCards rt l2 emoji.
Proof.
  intros H1 H2.
  assert (J : forall l, l <> [] ->
                buildCards rt l emoji = join_lines (map (card rt emoji) l))
    by (intros [|x l] H; [easy | reflexivity]).
  rewrite !J by (try assumption; now destruct l1).
  clear J. destruct l2 as [|b l2]; [easy|]. clear H2.
  induction l1 as [|a l1 IH]; [easy|].
  destruct l1 as [|a' l1].
  - reflexivity.
  - change (join_lines (map (card rt emoji) ((a :: a' :: l1) ++ b :: l2)))
      with (card rt emoji a
            ++ nl :: join_lines (map (card rt emoji) ((a' :: l1) ++ b :: l2))).
    rewrite IH by discriminate.
    change (join_lines (map (card rt emoji) (a :: a' :: l1)))
      with (card rt emoji a
            ++ nl :: join_lines (map (card rt emoji) (a' :: l1))).
    now rewrite <- app_assoc.
Qed.

Lemma buildCards_app_witness :
  buildCards Samples.runtime1 ([Samples.article1] ++ [Samples.article_blank])
             robot
  = buildCards Samples.runtime1 [Samples.article1] robot
    ++ nl :: buildCards Samples.runtime1 [Samples.article_blank] robot.
Proof.
  apply buildCards_app; discriminate.
Defined.

End CardProps.

(* ------------------------------------------------------------------ *)
(** ** More on section replacement *)

Module SectionProps.
Import Updater RegexFacts SectionFacts CardFacts.

(** The match that [replaceSection] rewrites, with the facts about it that
    the properties below share. *)
Lemma replaceSection_match html sectionId newCards n :
  match_at (section_regex sectionId) html n ->
  exists before open old close after,
    html = before ++ (open ++ old ++ close) ++ after
    /\ length before <= n
    /\ atoms_lang (section_open sectionId) open
    /\ atoms_lang section_close close
    /\ replaceSection html sectionId newCards
       = before ++ (open ++ nl :: newCards ++ nl :: spaces 12 ++ close)
                ++ after
    /\ forall x t y, old ++ close ++ after = x ++ t ++ y ->
         atoms_lang section_close t -> length old <= length x.
Proof.
  intros M. unfold replaceSection.
  destruct (replace_first_match _
              (fun _ caps _ => section_replacement newCards caps) _ _ M)
    as (b & caps & a & E & Hl & Hle & _ & Hms & R).
  destruct (section_regex_caps _ _ Hl) as (o & m & c & ->).
  exists b, o, m, c, a.
  pose proof (section_match_parts _ _ _ _ _ Hms) as Hmin.
  destruct (section_regex_parts _ _ _ _ Hl) as [Ho Hc].
  simpl in E, R. rewrite app_nil_r in E.
  repeat split; try assumption.
  intros x t y Ex Ht.
  destruct (Nat.le_gt_cases (length m) (length x)) as [|Hlt]; [assumption|].
  exfalso.
  destruct (app_split_prefix _ _ _ _ Ex Hlt) as (z & Em & Hz & Et).
  specialize (Hmin x z Em Hz). rewrite <- Et in Hmin.
  apply (match_segs_complete [section_close] [t]
           (S_cons _ _ _ _ Ht S_nil) y).
  cbn [concat]. rewrite app_nil_r. exact Hmin.
Qed.

Lemma section_open_ends sectionId o :
  atoms_lang (section_open sectionId) o ->
  exists p, o = p ++ lit "<div class=" ++ dq :: lit "card-grid" ++ dq :: lit ">".
Proof.
  unfold section_open. intros H.
  inversion H as [|? ? w1 r1 _ H1]; subst.
  inversion H1 as [|? ? w2 r2 _ H2]; subst.
  inversion H2 as [|? ? w3 r3 _ H3]; subst.
  inversion H3 as [|? ? w4 r4 _ H4]; subst.
  inversion H4 as [|? ? w5 r5 H5 H6]; subst.
  inversion H5; subst. inversion H6; subst.
  exists (w1 ++ w2 ++ w3 ++ w4). now rewrite app_nil_r, <- !app_assoc.
Qed.

Lemma section_close_starts c :
  atoms_lang section_close c -> exists r, c = close_div ++ r.
Proof.
  unfold section_close. intros H.
  inversion H as [|? ? w1 r1 H1 _]; subst.
  inversion H1; subst. now exists r1.
Qed.

(** The closing tags of a card, spelled out. *)
Lemma card_closing_tags rt emoji a :
  exists head,
    card rt emoji a
    = head ++ close_div ++ (nl :: spaces 20) ++ close_div
           ++ (nl :: spaces 16) ++ close_div.
Proof.
  unfold card. rewrite !app_assoc.
  rewrite <- (app_assoc _ (line 20 (lit "</div>"))),
          <- (app_assoc _ (line 24 (lit "</div>"))).
  match goal with
  | |- exists head, ?front ++ _ = _ =>
      exists (front ++ nl :: spaces 24);
      rewrite <- (app_assoc front); f_equal; reflexivity
  end.
Qed.

(** When the section pattern matches, the new cards stand in the result
    right after the opening tag of a card grid, on lines of their own, and
    are followed by a closing [div] tag. *)
Theorem replaceSection_inserts_cards html sectionId newCards n :
  literal_id sectionId = true ->
  match_at (section_regex sectionId) html n ->
  substring_of
    ((lit "<div class=" ++ dq :: lit "card-grid" ++ dq :: lit ">")
     ++ nl :: newCards ++ nl :: spaces 12 ++ lit "</div>")
    (replaceSection html sectionId newCards).
Proof.
  intros _ M.
  destruct (replaceSection_match html sectionId newCards n M)
    as (b & o & m & c & a & _ & _ & Ho & Hc & -> & _).
  apply section_open_ends in Ho as (p & ->).
  apply section_close_starts in Hc as (r & ->).
  exists (b ++ p), (r ++ a). unfold close_div.
  rewrite <- !app_assoc. cbn [app]. rewrite <- !app_assoc. reflexivity.
Qed.

Lemma replaceSection_inserts_cards_witness :
  substring_of
    ((lit "<div class=" ++ dq :: lit "card-grid" ++ dq :: lit ">")
     ++ nl :: Samples.cards1 ++ nl :: spaces 12 ++ lit "</div>")
    (replaceSection Samples.page (lit "us") Samples.cards1).
Proof.
  apply (replaceSection_inserts_cards Samples.page (lit "us")
           Samples.cards1 6); [reflexivity|].
  apply exec_match_at. vm_compute. reflexivity.
Defined.

(** The content that [replaceSection] drops ends where the closing group of
    the pattern first matches after the card grid tag. The region it
    rewrites is the first match of the pattern (leftmost start, shortest
    opening part, which ends in the card grid tag); the closing part is
    three closing [div] tags with white space between them; and no three
    such tags in a row begin inside the dropped content. *)
Theorem replaceSection_drops_up_to_first_close html sectionId newCards n :
  literal_id sectionId = true ->
  match_at (section_regex sectionId) html n ->
  exists before open old close after,
    html = before ++ (open ++ old ++ close) ++ after
    /\ segs_lang (section_regex sectionId) [open; old; close]
    /\ (exists p, open = p ++ lit "<div class=" ++ dq :: lit "card-grid"
                          ++ dq :: lit ">")
    /\ (exists w1 w2,
          close = close_div ++ w1 ++ close_div ++ w2 ++ close_div
          /\ forallb is_white_space w1 = true
          /\ forallb is_white_space w2 = true)
    /\ (forall k, k < length before ->
                  ~ match_at (section_regex sectionId) html k)
    /\ (forall o' m' c' a',
          html = before ++ (o' ++ m' ++ c') ++ a' ->
          segs_lang (section_regex sectionId) [o'; m'; c'] ->
          length open <= length o'
          /\ length (open ++ old) <= length (o' ++ m'))
    /\ replaceSection html sectionId newCards
       = before ++ (open ++ nl :: newCards ++ nl :: spaces 12 ++ close)
                ++ after
    /\ forall x t y, old ++ close ++ after = x ++ t ++ y ->
         atoms_lang section_close t -> length old <= length x.
Proof.
  intros _ M.
  destruct (section_first_match html sectionId newCards n M)
    as (b & o & m & c & a & E & Hl & _ & Hmin & Hsh & Hold & R).
  exists b, o, m, c, a.
  destruct (section_regex_parts _ _ _ _ Hl) as [Ho Hc].
  split; [assumption|]. split; [assumption|].
  split; [now apply section_open_ends in Ho|].
  split; [now apply section_close_shape in Hc|].
  split; [assumption|]. split; [assumption|]. split; assumption.
Qed.

Lemma replaceSection_drops_up_to_first_close_witness :
  exists before open old close after,
    Samples.page = before ++ (open ++ old ++ close) ++ after
    /\ segs_lang (section_regex (lit "us")) [open; old; close]
    /\ (exists p, open = p ++ lit "<div class=" ++ dq :: lit "card-grid"
                          ++ dq :: lit ">")
    /\ (exists w1 w2,
          close = close_div ++ w1 ++ close_div ++ w2 ++ close_div
          /\ forallb is_white_space w1 = true
          /\ forallb is_white_space w2 = true)
    /\ (forall k, k < length before ->
                  ~ match_at (section_regex (lit "us")) Samples.page k)
    /\ (forall o' m' c' a',
          Samples.page = before ++ (o' ++ m' ++ c') ++ a' ->
          segs_lang (section_regex (lit "us")) [o'; m'; c'] ->
          length open <= length o'
          /\ length (open ++ old) <= length (o' ++ m'))
    /\ replaceSection Samples.page (lit "us") (lit "NEW")
       = before ++ (open ++ nl :: lit "NEW" ++ nl :: spaces 12 ++ close)
                ++ after
    /\ forall x t y, old ++ close ++ after = x ++ t ++ y ->
         atoms_lang section_close t -> length old <= length x.
Proof.
  apply (replaceSection_drops_up_to_first_close Samples.page (lit "us")
           (lit "NEW") 6); [reflexivity|].
  apply exec_match_at. vm_compute. reflexivity.
Defined.

(** A card rendered by [buildCards] that stands in the card grid of the
    matched section is never dropped whole. The region that is rewritten is
    the first match of the pattern (leftmost start, shortest opening part,
    which ends in the card grid tag); if such a card stands anywhere in the
    document after that opening part, the dropped content ends before the
    three closing tags of the card, so these tags and all that follows them
    stay on the page. *)
Theorem replaceSection_keeps_card_endings html sectionId newCards n :
  literal_id sectionId = true ->
  match_at (section_regex sectionId) html n ->
  exists before open old close after,
    html = before ++ (open ++ old ++ close) ++ after
    /\ segs_lang (section_regex sectionId) [open; old; close]
    /\ (exists p, open = p ++ lit "<div class=" ++ dq :: lit "card-grid"
                          ++ dq :: lit ">")
    /\ (forall k, k < length before ->
                  ~ match_at (section_regex sectionId) html k)
    /\ (forall o' m' c' a',
          html = before ++ (o' ++ m' ++ c') ++ a' ->
          segs_lang (section_regex sectionId) [o'; m'; c'] ->
          length open <= length o'
          /\ length (open ++ old) <= length (o' ++ m'))
    /\ replaceSection html sectionId newCards
       = before ++ (open ++ nl :: newCards ++ nl :: spaces 12 ++ close)
                ++ after
    /\ forall rt emoji a x y,
         old ++ close ++ after = x ++ card rt emoji a ++ y ->
         exists head,
           card rt emoji a
           = head ++ close_div ++ (nl :: spaces 20) ++ close_div
                  ++ (nl :: spaces 16) ++ close_div
           /\ length old <= length (x ++ head).
Proof.
  intros _ M.
  destruct (section_first_match html sectionId newCards n M)
    as (b & o & m & c & a & E & Hl & _ & Hmin & Hsh & Hold & R).
  exists b, o, m, c, a.
  destruct (section_regex_parts _ _ _ _ Hl) as [Ho Hc].
  split; [assumption|]. split; [assumption|].
  split; [now apply section_open_ends in Ho|].
  split; [assumption|]. split; [assumption|]. split; [assumption|].
  intros rt emoji art x y Ex.
  destruct (card_closing_tags rt emoji art) as (head & Ecard).
  exists head. split; [exact Ecard|].
  apply (Hold (x ++ head)
              (close_div ++ (nl :: spaces 20) ++ close_div
               ++ (nl :: spaces 16) ++ close_div ++ []) y).
  - rewrite Ex, Ecard, app_nil_r, <- !app_assoc. reflexivity.
  - unfold section_close. repeat (constructor; try reflexivity).
Qed.

Lemma replaceSection_keeps_card_endings_witness :
  exists before open old close after,
    replaceSection Samples.page (lit "us") Samples.cards1
    = before ++ (open ++ old ++ close) ++ after
    /\ segs_lang (section_regex (lit "us")) [open; old; close]
    /\ (exists p, open = p ++ lit "<div class=" ++ dq :: lit "card-grid"
                          ++ dq :: lit ">")
    /\ (forall k, k < length before ->
                  ~ match_at (section_regex (lit "us"))
                      (replaceSection Samples.page (lit "us") Samples.cards1)
                      k)
    /\ (forall o' m' c' a',
          replaceSection Samples.page (lit "us") Samples.cards1
          = before ++ (o' ++ m' ++ c') ++ a' ->
          segs_lang (section_regex (lit "us")) [o'; m'; c'] ->
          length open <= length o'
          /\ length (open ++ old) <= length (o' ++ m'))
    /\ replaceSection (replaceSection Samples.page (lit "us") Samples.cards1)
                      (lit "us") (lit "NEW")
       = before ++ (open ++ nl :: lit "NEW" ++ nl :: spaces 12 ++ close)
                ++ after
    /\ forall rt emoji a x y,
         old ++ close ++ after = x ++ card rt emoji a ++ y ->
         exists head,
           card rt emoji a
           = head ++ close_div ++ (nl :: spaces 20) ++ close_div
                  ++ (nl :: spaces 16) ++ close_div
           /\ length old <= length (x ++ head).
Proof.
  apply (replaceSection_keeps_card_endings
           (replaceSection Samples.page (lit "us") Samples.cards1)
           (lit "us") (lit "NEW") 6); [reflexivity|].
  apply exec_match_at. vm_compute. reflexivity.
Defined.

Lemma replaceSection_still_matches html sectionId newCards n :
  match_at (section_regex sectionId) html n ->
  exists m, m <= n
    /\ match_at (section_regex sectionId)
                (replaceSection html sectionId newCards) m.
Proof.
  intros M.
  destruct (replaceSection_match html sectionId newCards n M)
    as (b & o & m & c & a & _ & Hle & Ho & Hc & -> & _).
  exists (length b). split; [assumption|].
  exists b, [o; nl :: newCards ++ nl :: spaces 12; c], a.
  repeat split.
  - cbn [concat]. rewrite app_nil_r, <- !app_assoc. cbn [app].
    now rewrite <- !app_assoc.
  - unfold section_regex.
    constructor; [assumption|].
    constructor; [apply dotall_any|].
    constructor; [assumption | constructor].
Qed.

(** After a replacement the section pattern matches the result again, at
    the place of the match that was rewritten: a later run finds the
    section. *)
Theorem replaceSection_section_found_again html sectionId newCards n :
  literal_id sectionId = true ->
  match_at (section_regex sectionId) html n ->
  exists m, m <= n
    /\ match_at (section_regex sectionId)
                (replaceSection html sectionId newCards) m.
Proof.
  intros _ M. now apply replaceSection_still_matches.
Qed.

Lemma replaceSection_section_found_again_witness :
  exists m, m <= 6
    /\ match_at (section_regex (lit "us"))
                (replaceSection Samples.page (lit "us") Samples.cards1) m.
Proof.
  apply (replaceSection_section_found_again Samples.page (lit "us")
           Samples.cards1 6); [reflexivity|].
  apply exec_match_at. vm_compute. reflexivity.
Defined.

Lemma includes_spec (s t : jsstring) :
  includes s t = true <-> substring_of s t.
Proof.
  split.
  - induction t as [|c t IH]; cbn [includes].
    + destruct (strip_prefix s []) as [r|] eqn:E; [|discriminate].
      intros _. apply strip_prefix_inv in E. now exists [], r.
    + destruct (strip_prefix s (c :: t)) as [r|] eqn:E.
      * intros _. apply strip_prefix_inv in E. now exists [], r.
      * intros H. destruct (IH H) as (pre & post & ->).
        now exists (c :: pre), post.
  - intros (pre & post & ->). induction pre as [|c pre IH].
    + cbn [app]. destruct (s ++ post) eqn:E; cbn [includes]; rewrite <- E;
        now rewrite strip_prefix_app.
    + cbn [app includes]. rewrite IH. now destruct (strip_prefix s _).
Qed.

(** A document that nowhere holds the marker of the section, the text
    [<div id=], the quoted id, [ class=] and an opening quote followed by
    [section], comes back from [replaceSection] as it was given: ids are
    matched exactly, and a section with another id is not touched. *)
Theorem replaceSection_marker_absent html sectionId newCards :
  literal_id sectionId = true ->
  includes (lit "<div id=" ++ dq :: sectionId ++ dq :: lit " class="
            ++ dq :: lit "section") html = false ->
  replaceSection html sectionId newCards = html.
Proof.
  intros _ Habs. unfold replaceSection. apply replace_no_match.
  apply marker_absent_no_match. rewrite <- includes_spec.
  now rewrite Habs.
Qed.

Lemma replaceSection_marker_absent_witness :
  replaceSection Samples.page (lit "u") Samples.cards1 = Samples.page.
Proof.
  apply replaceSection_marker_absent; reflexivity.
Defined.

Lemma buildCards_cons rt emoji a l :
  exists rest, buildCards rt (a :: l) emoji = card rt emoji a ++ rest.
Proof.
  destruct l as [|b l].
  - exists []. simpl. now rewrite app_nil_r.
  - exists (nl :: join_lines (map (card rt emoji) (b :: l))). reflexivity.
Qed.

(** Wherever the section is found, replacing it twice with the cards that
    [buildCards] renders for a non-empty list of articles gives a page that
    differs from the page after one replacement: the second run stops
    inside the first card of the first run. *)
Theorem replaceSection_cards_not_idempotent rt emoji html sectionId
        (a : article) (l : list article) n :
  literal_id sectionId = true ->
  match_at (section_regex sectionId) html n ->
  replaceSection
    (replaceSection html sectionId (buildCards rt (a :: l) emoji))
    sectionId (buildCards rt (a :: l) emoji)
  <> replaceSection html sectionId (buildCards rt (a :: l) emoji).
Proof.
  intros _ M.
  set (cards := buildCards rt (a :: l) emoji).
  destruct (replaceSection_still_matches html sectionId cards n M)
    as (m & _ & M1).
  destruct (replaceSection_match _ sectionId cards m M1)
    as (b2 & o2 & old2 & c2 & a2 & E & _ & _ & _ & R & Hmin).
  rewrite R. rewrite E. intros H.
  apply app_inv_head in H. rewrite <- !app_assoc in H.
  apply app_inv_head in H.
  assert (Eold : nl :: cards ++ nl :: spaces 12 = old2).
  { apply (app_inv_tail (c2 ++ a2)).
    rewrite <- H. cbn [app]. now rewrite <- !app_assoc. }
  destruct (buildCards_cons rt emoji a l) as (rest & Ecards).
  destruct (card_closing_tags rt emoji a) as (head & Ecard).
  fold cards in Ecards.
  assert (Hle : length old2 <= length ([nl] ++ head)).
  { apply (Hmin ([nl] ++ head)
                (close_div ++ (nl :: spaces 20) ++ close_div
                 ++ (nl :: spaces 16) ++ close_div ++ [])
                (rest ++ nl :: spaces 12 ++ c2 ++ a2)).
    - rewrite <- Eold, Ecards, Ecard, app_nil_r.
      cbn [app]. rewrite <- !app_assoc. cbn [app].
      now rewrite <- !app_assoc.
    - unfold section_close. repeat (constructor; try reflexivity). }
  rewrite <- Eold, Ecards, Ecard in Hle.
  cbn [app length] in Hle. rewrite !length_app in Hle.
  cbn [length] in Hle. lia.
Qed.

Lemma replaceSection_cards_not_idempotent_witness :
  replaceSection
    (replaceSection Samples.page_two_sections (lit "us")
       (buildCards Samples.runtime1
                   (Samples.article_blank :: [Samples.article_markup])
                   microscope))
    (lit "us")
    (buildCards Samples.runtime1
                (Samples.article_blank :: [Samples.article_markup])
                microscope)
  <> replaceSection Samples.page_two_sections (lit "us")
       (buildCards Samples.runtime1
                   (Samples.article_blank :: [Samples.article_markup])
                   microscope).
Proof.
  apply (replaceSection_cards_not_idempotent Samples.runtime1 microscope
           Samples.page_two_sections (lit "us") Samples.article_blank
           [Samples.article_markup] 6); [reflexivity|].
  apply exec_match_at. vm_compute. reflexivity.
Defined.

End SectionProps.

(* ------------------------------------------------------------------ *)
(** ** More on the timestamp *)

Module TimestampProps.
Import Updater RegexFacts TimestampFacts.

(** A match of the pattern at the end of a prefix without earlier matches
    is the one [exec] returns. *)
Lemma exec_intro segs caps a s' : forall b,
  match_segs segs s' = Some (caps, a) ->
  (forall n, n < length b -> ~ match_at segs (b ++ s') n) ->
  exec segs (b ++ s') = Some (b, caps, a).
Proof.
  induction b as [|c b IH]; intros Hm Hmin.
  - simpl. destruct s'; simpl; now rewrite Hm.
  - cbn [app exec].
    destruct (match_segs segs (c :: b ++ s')) as [[caps' tl]|] eqn:H0.
    + exfalso. apply (Hmin 0); [simpl; lia|].
      apply match_at_0. cbn [app]. now rewrite H0.
    + rewrite IH; [reflexivity | assumption|].
      intros n Hn. rewrite <- match_at_S. apply Hmin. simpl. lia.
Qed.

(** A greedy run over text of the class, up to text that is not. *)
Lemma star_greedy_run {A} cl (k : jsstring -> option A) w rest r :
  forallb (in_class cl) w = true ->
  match rest with [] => True | c :: _ => in_class cl c = false end ->
  k rest = Some r ->
  star_greedy cl k (w ++ rest) = Some r.
Proof.
  intros Hw Hrest Hk. induction w as [|c w IH]; simpl in *.
  - destruct rest as [|c rest]; simpl; [assumption|]. now rewrite Hrest.
  - apply andb_prop in Hw as [Hc Hw]. now rewrite Hc, (IH Hw).
Qed.

Lemma match_label_text text a :
  text <> [] -> forallb (in_class (CNot lt)) text = true ->
  match a with [] => True | c :: _ => c = lt end ->
  match_segs last_updated_regex ((label ++ text) ++ a)
  = Some ([label ++ text], a).
Proof.
  intros Hne Hall Ha. unfold last_updated_regex.
  cbn [match_segs match_atoms]. rewrite <- app_assoc, strip_prefix_app.
  destruct text as [|c text]; [easy|].
  cbn [forallb] in Hall. apply andb_prop in Hall as [Hc Hall].
  cbn [app]. rewrite Hc. unfold star.
  rewrite (star_greedy_run _ _ text a
             ([label ++ c :: text], a)); try assumption; [reflexivity| |].
  - destruct a as [|d a]; [exact I|]. now subst d.
  - f_equal. f_equal. f_equal.
    pose proof (firstn_consumed (label ++ c :: text) a) as F.
    now rewrite <- app_assoc in F.
Qed.

Lemma digits_no_lt u : forallb (in_class (CNot lt)) (digits u) = true.
Proof. induction u; simpl; auto. Qed.

Lemma date_text d :
  toLocaleDateString_en_US d <> []
  /\ forallb (in_class (CNot lt)) (toLocaleDateString_en_US d) = true.
Proof.
  unfold toLocaleDateString_en_US, decimal. split.
  - now destruct (mon d).
  - rewrite !forallb_app, !digits_no_lt. now destruct (mon d).
Qed.

Lemma app_prefix_of_shorter (p x q y : jsstring) :
  p ++ x = q ++ y -> length q <= length p -> exists z, p = q ++ z.
Proof.
  revert q. induction p as [|c p IH]; intros q E Hlen.
  - destruct q; [now exists [] | simpl in Hlen; lia].
  - destruct q as [|d q]; [now exists (c :: p)|].
    simpl in E, Hlen. inversion E; subst d.
    destruct (IH q H1) as (z & ->); [lia|]. now exists z.
Qed.

(** What [updateLastModified] does where the pattern matches. *)
Lemma updateLastModified_match rt html b caps a :
  exec last_updated_regex html = Some (b, caps, a) ->
  exists text,
    html = b ++ (label ++ text) ++ a
    /\ match a with [] => True | c :: _ => c = lt end
    /\ (forall n, n < length b -> ~ match_at last_updated_regex html n)
    /\ updateLastModified rt html
       = b ++ (label ++ toLocaleDateString_en_US (now rt)) ++ a.
Proof.
  intros He.
  destruct (exec_sound _ _ _ _ _ He) as (E & _ & Hmin).
  destruct (exec_inv _ _ _ _ _ He) as (s' & E' & Hs').
  apply match_last_updated in Hs' as (text & -> & -> & _ & _ & Ha).
  exists text. repeat split; try assumption.
  unfold updateLastModified, replace_str, replace. rewrite He.
  now rewrite get_substitution_plain by apply date_no_dollar.
Qed.

Lemma updateLastModified_twice (rt : runtime) (html : jsstring) :
  updateLastModified rt (updateLastModified rt html)
  = updateLastModified rt html.
Proof.
  destruct (exec last_updated_regex html) as [[[b caps] a]|] eqn:He.
  - destruct (updateLastModified_match rt html b caps a He)
      as (text & E & Ha & Hmin & R).
    rewrite R.
    destruct (date_text (now rt)) as [Hne Hall].
    assert (He2 : exec last_updated_regex
                    (b ++ (label ++ toLocaleDateString_en_US (now rt)) ++ a)
                  = Some (b, [label ++ toLocaleDateString_en_US (now rt)], a)).
    { apply exec_intro; [now apply match_label_text|].
      intros n Hn (b' & ws & a' & E2 & Hb' & Hl).
      apply (Hmin n Hn).
      inversion Hl as [|? ? w ws' Hw Hnil]; subst. inversion Hnil; subst.
      inversion Hw as [|? ? w1 w2 H1 H2]; subst. inversion H1; subst.
      inversion H2 as [|? ? w3 w4 H3 H4]; subst. inversion H4; subst.
      inversion H3 as [| |? ? ? Hne3 Hall3]; subst.
      destruct w3 as [|c w3]; [easy|].
      cbn [forallb] in Hall3. apply andb_prop in Hall3 as [Hc _].
      rewrite concat_cons, !app_nil_r in E2.
      assert (P : exists z, b ++ label = (b' ++ label ++ [c]) ++ z).
      { apply (app_prefix_of_shorter _
                 (toLocaleDateString_en_US (now rt) ++ a) _ (w3 ++ a')).
        - rewrite <- !app_assoc. rewrite <- !app_assoc in E2.
          cbn [app] in *. exact E2.
        - rewrite !length_app in *. cbn [length]. lia. }
      destruct P as (z & P).
      replace (b ++ (label ++ text) ++ a)
        with (b' ++ (label ++ [c]) ++ (z ++ text ++ a)).
      + apply label_then_text_matches; [discriminate|].
        cbn [forallb]. now rewrite Hc.
      + rewrite <- !app_assoc. rewrite (app_assoc b label), P.
        now rewrite <- !app_assoc. }
    destruct (updateLastModified_match rt _ _ _ _ He2)
      as (text2 & _ & _ & _ & R2).
    exact R2.
  - assert (U : updateLastModified rt html = html)
      by (unfold updateLastModified, replace_str, replace; now rewrite He).
    now rewrite !U.
Qed.

(** Updating the timestamp twice on the same day gives what updating it once
    gives. *)
Theorem updateLastModified_idempotent (rt : runtime) (html : jsstring) :
  updateLastModified rt (updateLastModified rt html)
  = updateLastModified rt html.
Proof. apply updateLastModified_twice. Qed.

(** A label that is followed by a tag at once, or by nothing, is not a
    timestamp to [updateLastModified]: when no occurrence of the label is
    followed by a character other than [<], the document comes back
    unchanged. *)
Theorem updateLastModified_skips_label_before_tag (rt : runtime)
        (html : jsstring) :
  (forall b c a, html = b ++ label ++ c :: a -> c = lt) ->
  updateLastModified rt html = html.
Proof.
  intros Hall. unfold updateLastModified, replace_str.
  apply replace_no_match.
  intros n (b & ws & a & -> & _ & Hl).
  inversion Hl as [|? ? w ws' Hw Hnil]; subst. inversion Hnil; subst.
  inversion Hw as [|? ? w1 w2 H1 H2]; subst. inversion H1; subst.
  inversion H2 as [|? ? w3 w4 H3 H4]; subst. inversion H4; subst.
  inversion H3 as [| |? ? ? Hne3 Hall3]; subst.
  destruct w3 as [|c w3]; [easy|].
  cbn [forallb] in Hall3. apply andb_prop in Hall3 as [Hc _].
  assert (c = lt) as ->.
  { apply (Hall b c (w3 ++ a)).
    rewrite concat_cons, !app_nil_r, <- !app_assoc. reflexivity. }
  discriminate Hc.
Qed.

Lemma updateLastModified_skips_label_before_tag_witness :
  updateLastModified Samples.runtime1 Samples.page_label_then_tag
  = Samples.page_label_then_tag.
Proof.
  apply updateLastModified_skips_label_before_tag.
  intros b c a E.
  destruct (N.eq_dec c lt) as [|Hc]; [assumption|].
  exfalso.
  apply (exec_None last_updated_regex Samples.page_label_then_tag
           eq_refl (length b)).
  rewrite E.
  change (b ++ label ++ c :: a) with (b ++ label ++ [c] ++ a).
  rewrite (app_assoc label).
  apply label_then_text_matches; [discriminate|].
  cbn [forallb in_class]. apply N.eqb_neq in Hc. now rewrite Hc.
Defined.

End TimestampProps.

(* ------------------------------------------------------------------ *)
(** ** More on the run as a whole *)

Module RunProps.
Import Updater FetchFacts.

(** [main] writes index.html only after both fetches have resolved and the
    page has been read; it reports completion exactly when the page was
    written, and a run that never settles has not touched the page. *)
Theorem main_writes_after_fetch_and_read (rt : runtime) :
  (disk (main rt) <> Untouched ->
   exists usArticles chinaArticles html,
     fetchNews rt QUERIES_us (two_weeks_ago_iso rt) = Resolved usArticles
     /\ fetchNews rt QUERIES_china (two_weeks_ago_iso rt)
        = Resolved chinaArticles
     /\ INDEX_html rt = Some html)
  /\ (ended (main rt) = Completed <-> exists html, disk (main rt) = Written html)
  /\ (ended (main rt) = NeverSettles -> disk (main rt) = Untouched).
Proof.
  unfold main.
  destruct (fetchNews rt QUERIES_us (two_weeks_ago_iso rt)) as [us|e1|];
    destruct (fetchNews rt QUERIES_china (two_weeks_ago_iso rt)) as [ch|e2|];
    cbn [Promise_all disk ended];
    try (repeat split; try easy; intros (h & H); discriminate H).
  destruct (INDEX_html rt) as [html|]; cbn [disk ended];
    [|repeat split; try easy; intros (h & H); discriminate H].
  destruct (write_succeeds rt); cbn [disk ended].
  - split; [intros _; now exists us, ch, html|].
    split; [|discriminate].
    split; [intros _; eexists; reflexivity | reflexivity].
  - split; [intros _; now exists us, ch, html|].
    split; [|discriminate].
    split; [discriminate | intros (h & H); discriminate H].
Qed.

Lemma main_writes_after_fetch_and_read_witness :
  exists usArticles chinaArticles html,
    fetchNews Samples.runtime1 QUERIES_us
              (two_weeks_ago_iso Samples.runtime1) = Resolved usArticles
    /\ fetchNews Samples.runtime1 QUERIES_china
                 (two_weeks_ago_iso Samples.runtime1) = Resolved chinaArticles
    /\ INDEX_html Samples.runtime1 = Some html.
Proof.
  apply (main_writes_after_fetch_and_read Samples.runtime1).
  vm_compute. discriminate.
Defined.

(** When both fetches resolve with no article, and so whenever no API key
    is configured, whatever the network would answer, the run leaves both
    sections alone: the page is written back with its timestamp updated and
    nothing else changed by the section step. *)
Theorem main_without_articles (rt : runtime) (html : jsstring) :
  INDEX_html rt = Some html -> write_succeeds rt = true ->
  (fetchNews rt QUERIES_us (two_weeks_ago_iso rt) = Resolved [] ->
   fetchNews rt QUERIES_china (two_weeks_ago_iso rt) = Resolved [] ->
   main rt = {| disk := Written (updateLastModified rt html);
                ended := Completed |})
  /\ (NEWS_API_KEY rt = [] ->
      main rt = {| disk := Written (updateLastModified rt html);
                   ended := Completed |}).
Proof.
  intros Hread Hwrite.
  assert (G : fetchNews rt QUERIES_us (two_weeks_ago_iso rt) = Resolved [] ->
              fetchNews rt QUERIES_china (two_weeks_ago_iso rt) = Resolved [] ->
              main rt = {| disk := Written (updateLastModified rt html);
                           ended := Completed |}).
  { intros Hus Hch. unfold main.
    now rewrite Hus, Hch; cbn [Promise_all]; rewrite Hread, Hwrite. }
  split; [exact G|].
  intros Hkey. apply G; unfold fetchNews; now rewrite Hkey.
Qed.

Lemma main_without_articles_witness :
  main Samples.runtime_error_status
  = {| disk := Written (updateLastModified Samples.runtime_error_status
                                           Samples.page);
       ended := Completed |}
  /\ main Samples.runtime_no_key
     = {| disk := Written (updateLastModified Samples.runtime_no_key
                                              Samples.page);
          ended := Completed |}.
Proof.
  split.
  - destruct (main_without_articles Samples.runtime_error_status Samples.page)
      as [H _]; [reflexivity | reflexivity|].
    apply H; reflexivity.
  - destruct (main_without_articles Samples.runtime_no_key Samples.page)
      as [_ H]; [reflexivity | reflexivity|].
    apply H; reflexivity.
Defined.

(** With an API key configured, a network error on either of the two
    requests rejects that fetch and ends the run in the catch block, the
    page untouched. *)
Theorem main_network_error (rt : runtime) (query : jsstring) :
  NEWS_API_KEY rt <> [] ->
  query = QUERIES_us \/ query = QUERIES_china ->
  https_get rt (news_request rt query (two_weeks_ago_iso rt)) = HttpError ->
  fetchNews rt query (two_weeks_ago_iso rt) = Rejected NetworkError
  /\ exists e, main rt = {| disk := Untouched; ended := Caught e |}.
Proof.
  intros Hkey Hq Hget.
  assert (R : fetchNews rt query (two_weeks_ago_iso rt) = Rejected NetworkError)
    by now rewrite fetchNews_with_key, Hget.
  split; [exact R|].
  apply (main_rejected rt NetworkError).
  destruct Hq as [<-|<-]; [now left | now right].
Qed.

Lemma main_network_error_witness :
  fetchNews Samples.runtime_offline QUERIES_china
            (two_weeks_ago_iso Samples.runtime_offline)
  = Rejected NetworkError
  /\ exists e, main Samples.runtime_offline
               = {| disk := Untouched; ended := Caught e |}.
Proof.
  apply (main_network_error Samples.runtime_offline QUERIES_china);
    [discriminate | now right | reflexivity].
Defined.

(** With an API key configured, a request that never ends leaves its fetch
    pending; unless the other fetch rejects, the run then never gets past
    the joined fetches, and the page is neither read nor written. *)
Theorem main_waits_forever (rt : runtime) (query : jsstring) :
  NEWS_API_KEY rt <> [] ->
  query = QUERIES_us \/ query = QUERIES_china ->
  https_get rt (news_request rt query (two_weeks_ago_iso rt)) = HttpSilent ->
  (forall e, fetchNews rt QUERIES_us (two_weeks_ago_iso rt) <> Rejected e) ->
  (forall e, fetchNews rt QUERIES_china (two_weeks_ago_iso rt) <> Rejected e) ->
  main rt = {| disk := Untouched; ended := NeverSettles |}.
Proof.
  intros Hkey Hq Hget Hus Hch.
  assert (P : fetchNews rt query (two_weeks_ago_iso rt) = Pending)
    by now rewrite fetchNews_with_key, Hget.
  unfold main.
  destruct (fetchNews rt QUERIES_us (two_weeks_ago_iso rt)) as [us|e1|] eqn:E1;
    destruct (fetchNews rt QUERIES_china (two_weeks_ago_iso rt))
      as [ch|e2|] eqn:E2;
    cbn [Promise_all]; try reflexivity;
    try (now destruct (Hus e1)); try (now destruct (Hch e2)).
  destruct Hq as [->| ->]; congruence.
Qed.

Lemma main_waits_forever_witness :
  main Samples.runtime_silent = {| disk := Untouched; ended := NeverSettles |}.
Proof.
  apply (main_waits_forever Samples.runtime_silent QUERIES_us);
    [discriminate | now left | reflexivity | discriminate | discriminate].
Defined.

(** [fetchNews] resolves with articles only for a response whose status is
    [ok]: a non-empty result is the article list of a parsed body with that
    status, fetched with a configured key. *)
Theorem fetchNews_articles_only_from_ok rt query fromDate (l : list article) :
  fetchNews rt query fromDate = Resolved l -> l <> [] ->
  NEWS_API_KEY rt <> []
  /\ exists data message,
       https_get rt (news_request rt query fromDate) = HttpEnd data
       /\ JSON_parse rt data
          = Some (PValue (Some (lit "ok")) message (Some l)).
Proof.
  intros Hres Hne. unfold fetchNews in Hres.
  destruct (NEWS_API_KEY rt) as [|c key] eqn:Hkey;
    [inversion Hres; now subst|].
  split; [discriminate|].
  destruct (https_get rt (news_request rt query fromDate)) as [|data|] eqn:Hget;
    try discriminate.
  destruct (JSON_parse rt data) as [[|status message articles]|] eqn:Hparse;
    try discriminate.
  destruct (status_is_ok status) eqn:Hok; [|inversion Hres; now subst].
  apply status_is_ok_iff in Hok. subst status.
  destruct articles as [arts|]; inversion Hres; subst; [|easy].
  exists data, message. now split.
Qed.

Lemma fetchNews_articles_only_from_ok_witness :
  NEWS_API_KEY Samples.runtime1 <> []
  /\ exists data message,
       https_get Samples.runtime1
         (news_request Samples.runtime1 QUERIES_us (lit "2026-10-19"))
       = HttpEnd data
       /\ JSON_parse Samples.runtime1 data
          = Some (PValue (Some (lit "ok")) message (Some [Samples.article1])).
Proof.
  apply (fetchNews_articles_only_from_ok Samples.runtime1 QUERIES_us
           (lit "2026-10-19") [Samples.article1]);
    [reflexivity | discriminate].
Defined.

(** The page that a run writes has its timestamp up to date: updating the
    timestamp of the written page again, with the same clock, changes
    nothing. *)
Theorem main_written_page_is_stamped (rt : runtime) (html : jsstring) :
  disk (main rt) = Written html -> updateLastModified rt html = html.
Proof.
  unfold main.
  destruct (Promise_all (fetchNews rt QUERIES_us (two_weeks_ago_iso rt))
                        (fetchNews rt QUERIES_china (two_weeks_ago_iso rt)))
    as [[us ch]|e|]; try discriminate.
  destruct (INDEX_html rt) as [html0|]; [|discriminate].
  destruct (write_succeeds rt); [|discriminate].
  cbn [disk]. intros H. inversion H; subst html.
  apply TimestampProps.updateLastModified_twice.
Qed.

Lemma main_written_page_is_stamped_witness :
  updateLastModified Samples.runtime1
    (updateLastModified Samples.runtime1
       (replaceSection Samples.page (lit "us") Samples.cards1))
  = updateLastModified Samples.runtime1
      (replaceSection Samples.page (lit "us") Samples.cards1).
Proof.
  apply (main_written_page_is_stamped Samples.runtime1).
  vm_compute. reflexivity.
Defined.

End RunProps.

(* ------------------------------------------------------------------ *)
(** ** More on the static server *)

Module ServerProps.
Import NodePath Server ServerFacts.

Lemma jsstring_eqb_cons c (a b : jsstring) :
  jsstring_eqb (c :: a) (c :: b) = jsstring_eqb a b.
Proof.
  unfold jsstring_eqb.
  destruct (list_eq_dec N.eq_dec (c :: a) (c :: b)) as [E|E];
    destruct (list_eq_dec N.eq_dec a b) as [E'|E']; try reflexivity.
  - now inversion E.
  - now subst.
Qed.

Lemma drop_while_app p (l r : jsstring) :
  forallb p l = true ->
  match r with [] => True | c :: _ => p c = false end ->
  drop_while p (l ++ r) = r.
Proof.
  intros Hl Hr. induction l as [|c l IH]; simpl in *.
  - destruct r as [|c r]; [reflexivity | simpl; now rewrite Hr].
  - apply andb_prop in Hl as [Hc Hl]. now rewrite Hc, (IH Hl).
Qed.

Lemma forallb_rev (p : char -> bool) (l : jsstring) :
  forallb p l = true -> forallb p (rev l) = true.
Proof.
  rewrite !forallb_forall. intros H c Hc. apply H. now apply in_rev.
Qed.

(** The extension of a file name [stem.ext]. *)
Lemma extname_stem_ext stem ext :
  stem <> [] -> no_slash stem = true ->
  ext <> [] -> no_slash ext = true ->
  forallb (fun c => negb (N.eqb c dot)) ext = true ->
  no_slash (stem ++ dot :: ext) = true
  /\ extname (stem ++ dot :: ext) = dot :: ext.
Proof.
  intros Hs Hns He Hne Hnd.
  assert (Hw : no_slash (stem ++ dot :: ext) = true).
  { unfold no_slash in *. rewrite forallb_app. cbn [forallb].
    now rewrite Hns, Hne. }
  split; [exact Hw|].
  unfold extname.
  pose proof (rev_basename_file [] (stem ++ dot :: ext) Hw) as B.
  cbn [app] in B. rewrite B; [|now destruct stem | now left].
  rewrite rev_app_distr. cbn [rev]. rewrite <- app_assoc. cbn [app].
  rewrite take_while_app, drop_while_app;
    try (now apply forallb_rev); try reflexivity.
  destruct (rev stem) as [|c r] eqn:Er.
  - apply (f_equal (@rev _)) in Er. rewrite rev_involutive in Er. now subst.
  - destruct (rev ext) as [|e re] eqn:Ee.
    + apply (f_equal (@rev _)) in Ee. rewrite rev_involutive in Ee. now subst.
    + rewrite <- Ee, rev_involutive.
      rewrite Ee. unfold jsstring_eqb at 2.
      destruct (list_eq_dec N.eq_dec (e :: re) []); [discriminate|].
      now rewrite andb_false_r.
Qed.

(** A file [stem.ext] of the site directory that can be read is served
    with status 200 and its text; the content type is chosen by the
    extension alone: css for [css], javascript for [js], and html for every
    other one. *)
Theorem handler_content_type_by_extension (h : host) stem ext data :
  stem <> [] -> no_slash stem = true ->
  ext <> [] -> no_slash ext = true ->
  forallb (fun c => negb (N.eqb c dot)) ext = true ->
  readFile h (join (dirname h) (slash :: stem ++ dot :: ext)) = ReadOk data ->
  handler h (slash :: stem ++ dot :: ext)
  = {| statusCode := 200;
       contentType :=
         if jsstring_eqb ext (lit "css") then lit "text/css; charset=utf-8"
         else if jsstring_eqb ext (lit "js")
              then lit "application/javascript; charset=utf-8"
              else lit "text/html; charset=utf-8";
       body := data |}.
Proof.
  intros Hs Hns He Hne Hnd Hread.
  destruct (extname_stem_ext stem ext Hs Hns He Hne Hnd) as [Hw Hext].
  unfold handler, resolve_path.
  rewrite (jsstring_eqb_neq (slash :: stem ++ dot :: ext) (lit "/"))
    by (destruct stem; [easy | discriminate]).
  rewrite Hread, extname_join_file, Hext; try assumption.
  - change (lit ".css") with (dot :: lit "css").
    change (lit ".js") with (dot :: lit "js").
    rewrite !jsstring_eqb_cons.
    destruct (jsstring_eqb ext (lit "css")) eqn:Ecss; [|reflexivity].
    apply jsstring_eqb_eq in Ecss. now subst ext.
  - now destruct stem.
  - destruct stem as [|c [|c' stem]]; [easy | | discriminate].
    destruct ext; [easy | discriminate].
  - destruct stem as [|c [|c' stem]]; [easy | | ].
    + destruct ext; [easy | discriminate].
    + destruct stem; discriminate.
Qed.

Lemma handler_content_type_by_extension_witness :
  handler Samples.host_with_neighbour (lit "/app.js")
  = {| statusCode := 200;
       contentType := lit "application/javascript; charset=utf-8";
       body := lit "let x = 1;" |}
  /\ handler Samples.host_with_neighbour (lit "/logo.png")
     = {| statusCode := 200;
          contentType := lit "text/html; charset=utf-8";
          body := lit "PNG" |}.
Proof.
  split.
  - apply (handler_content_type_by_extension Samples.host_with_neighbour
             (lit "app") (lit "js") (lit "let x = 1;"));
      solve [discriminate | reflexivity].
  - apply (handler_content_type_by_extension Samples.host_with_neighbour
             (lit "logo") (lit "png") (lit "PNG"));
      solve [discriminate | reflexivity].
Defined.

Lemma normalize_absolute tl w :
  ends_with_slash (slash :: tl) = false ->
  normalizeString (slash :: tl) false = w -> w <> [] ->
  normalize (slash :: tl) = slash :: w.
Proof.
  intros T S Hw. unfold normalize.
  change (is_slash slash) with true. cbn [negb]. rewrite T, S.
  destruct w as [|c w]; [easy|]. cbn [app]. now rewrite app_nil_r.
Qed.

(** Joining [/dir] with [/../name] leaves the directory. *)
Lemma join_parent d w :
  no_slash d = true -> d <> [] -> d <> dot_seg -> d <> dotdot_seg ->
  no_slash w = true -> w <> [] -> w <> dot_seg -> w <> dotdot_seg ->
  join (slash :: d) (lit "/../" ++ w) = slash :: w.
Proof.
  intros Hd Hd0 Hd1 Hd2 Hw Hw0 Hw1 Hw2.
  unfold join. cbn [lit app].
  change (N_of_ascii "/") with slash. change (N_of_ascii ".") with dot.
  assert (E : slash :: d ++ slash :: slash :: dot :: dot :: slash :: w
              = ((([] ++ slash :: d) ++ slash :: [])
                 ++ slash :: dotdot_seg) ++ slash :: w)
    by (cbn [app]; rewrite <- !app_assoc; reflexivity).
  apply normalize_absolute; [| |assumption]; rewrite E.
  - unfold ends_with_slash. rewrite rev_app_distr. cbn [rev].
    destruct (last_not_slash w Hw Hw0) as (_ & c & r & Er & Hc).
    rewrite Er. cbn [app]. exact Hc.
  - unfold normalizeString.
    rewrite !split_slash_app by (assumption || reflexivity).
    cbn [split_slash app fold_left].
    change (push_segment false [] []) with (@nil jsstring).
    rewrite (push_segment_file false [] d) by assumption.
    change (push_segment false [d] []) with [d].
    assert (P : push_segment false [d] dotdot_seg = []).
    { unfold push_segment.
      change (jsstring_eqb dotdot_seg [] || jsstring_eqb dotdot_seg dot_seg)
        with false.
      change (jsstring_eqb dotdot_seg dotdot_seg) with true.
      cbv iota. now rewrite (jsstring_eqb_neq d dotdot_seg) by assumption. }
    rewrite P, push_segment_file by assumption. reflexivity.
Qed.

(** The handler does not keep requests inside the site directory: a url
    that climbs with [..] is resolved as the file system resolves it, and
    a readable file next to the directory is served like any other. *)
Theorem handler_serves_outside_directory (h : host) d w data :
  dirname h = slash :: d ->
  no_slash d = true -> d <> [] -> d <> dot_seg -> d <> dotdot_seg ->
  no_slash w = true -> w <> [] -> w <> dot_seg -> w <> dotdot_seg ->
  readFile h (slash :: w) = ReadOk data ->
  resolve_path h (lit "/../" ++ w) = slash :: w
  /\ statusCode (handler h (lit "/../" ++ w)) = 200
  /\ body (handler h (lit "/../" ++ w)) = data.
Proof.
  intros Hdir Hd Hd0 Hd1 Hd2 Hw Hw0 Hw1 Hw2 Hread.
  assert (R : resolve_path h (lit "/../" ++ w) = slash :: w).
  { unfold resolve_path.
    rewrite (jsstring_eqb_neq (lit "/../" ++ w) (lit "/")) by discriminate.
    rewrite Hdir. now apply join_parent. }
  split; [exact R|].
  unfold handler. rewrite R, Hread. now split.
Qed.

Lemma handler_serves_outside_directory_witness :
  resolve_path Samples.host_with_neighbour (lit "/../" ++ lit "secret.txt")
  = slash :: lit "secret.txt"
  /\ statusCode (handler Samples.host_with_neighbour
                         (lit "/../" ++ lit "secret.txt")) = 200
  /\ body (handler Samples.host_with_neighbour
                   (lit "/../" ++ lit "secret.txt")) = lit "top secret".
Proof.
  apply (handler_serves_outside_directory Samples.host_with_neighbour
           (lit "site") (lit "secret.txt") (lit "top secret"));
    solve [discriminate | reflexivity].
Defined.

End ServerProps.
